(** * An LFU cache with frequency buckets: model of [lfu.go] and its properties

    The cache of [lfu.go] keeps a key index [kv], a [container/list] of
    frequency nodes ordered by frequency, and one heap-allocated [kvItem] per
    live key with a back pointer [parent] to the list element of its bucket.

    The embedding keeps that shape.  Pointers are addresses handed out by a
    bump allocator; the items live in a store [heap]; a list element is its
    address together with the node it carries; the [container/list] calls the
    code uses are functions on the sequence of elements.  Go's [int] is a
    64-bit two's-complement integer, written here as a [Z] with explicit
    wrap-around.  The only non-determinism of the program, the iteration order
    of [range] over a Go map, is an explicit oracle argument [pick]. *)

From Stdlib Require Import ZArith Lia.
From stdpp Require Import base option list sorting gmap strings fin_maps fin_sets.

#[local] Set Warnings "-clear-no-such-hyp".

(** ** Machine integers *)

Module Int.
Definition min_int : Z := (- 2 ^ 63)%Z.
Definition max_int : Z := (2 ^ 63 - 1)%Z.
Definition wrap (z : Z) : Z := ((z + 2 ^ 63) mod 2 ^ 64 - 2 ^ 63)%Z.
Definition add (a b : Z) : Z := wrap (a + b).
Definition in_range (z : Z) : Prop := (min_int ≤ z ≤ max_int)%Z.

End Int.

(** ** Data model *)

(** Addresses of heap objects ([*kvItem], [*list.Element]). *)
Abbreviation ptr := nat.

(** [kvItem]: [parent] is a [*list.Element], [None] being [nil]. *)
Record kvItem (V : Type) : Type := KvItem {
  k : string;
  v : V;
  parent : option ptr
}.
Arguments KvItem {V}.
Arguments k {V}.
Arguments v {V}.
Arguments parent {V}.

(** [freqNode]: [items] is the Go map [map[*kvItem]interface{}] used as a set. *)
Record freqNode : Type := FreqNode {
  freq : Z;
  items : gset ptr
}.

(** A [*list.Element] of the frequency list: its address and its [Value]. *)
Record Element : Type := MkElement {
  self : ptr;
  Value : freqNode
}.

(** [cache]: the mutex is left out (see the interleaving model further down);
    [heap] stores the items and [brk] is the next unused address. *)
Record cache (V : Type) : Type := Cache {
  cap : Z;
  kv : gmap string ptr;
  freqList : list Element;
  heap : gmap ptr (kvItem V);
  brk : ptr
}.
Arguments Cache {V}.
Arguments cap {V}.
Arguments kv {V}.
Arguments freqList {V}.
Arguments heap {V}.
Arguments brk {V}.

(** The iteration order of [range] over a map: the oracle is shown the
    remaining members and answers with a position among them. *)
Definition oracle : Type := list ptr → nat.

(** ** The [container/list] operations used by the code *)

Module List.
Definition Len (l : list Element) : nat := length l.

Definition Front (l : list Element) : option Element := head l.

Definition PushFront (a : ptr) (x : freqNode) (l : list Element) : list Element :=
  MkElement a x :: l.

(** Dereferencing an element pointer. *)
Fixpoint find (mark : ptr) (l : list Element) : option Element :=
  match l with
  | [] => None
  | e :: l' => if decide (self e = mark) then Some e else find mark l'
  end.

Fixpoint Next (mark : ptr) (l : list Element) : option Element :=
  match l with
  | [] => None
  | e :: l' => if decide (self e = mark) then head l' else Next mark l'
  end.

(** [InsertAfter] leaves the list alone when [mark] is not an element of it. *)
Fixpoint InsertAfter (a : ptr) (x : freqNode) (mark : ptr) (l : list Element)
  : list Element :=
  match l with
  | [] => []
  | e :: l' =>
      if decide (self e = mark) then e :: MkElement a x :: l'
      else e :: InsertAfter a x mark l'
  end.

(** [Remove] leaves the list alone when [mark] is not an element of it. *)
Fixpoint Remove (mark : ptr) (l : list Element) : list Element :=
  match l with
  | [] => []
  | e :: l' => if decide (self e = mark) then l' else e :: Remove mark l'
  end.

(** Mutation of the node an element points to. *)
Fixpoint update (mark : ptr) (f : freqNode → freqNode) (l : list Element)
  : list Element :=
  match l with
  | [] => []
  | e :: l' =>
      if decide (self e = mark) then MkElement (self e) (f (Value e)) :: l'
      else e :: update mark f l'
  end.
End List.

(** [node.items[item] = placeholder] and [delete(node.items, item)]. *)
Definition addItem (item : ptr) (x : freqNode) : freqNode :=
  FreqNode (freq x) ({[item]} ∪ items x).

Definition delItem (item : ptr) (x : freqNode) : freqNode :=
  FreqNode (freq x) (items x ∖ {[item]}).

(** ** The cache operations *)

Section Operations.
Context {V : Type}.
Implicit Types (c : cache V) (it : kvItem V).

Definition set_kv (m : gmap string ptr) c : cache V :=
  Cache (cap c) m (freqList c) (heap c) (brk c).

Definition set_freqList (l : list Element) c : cache V :=
  Cache (cap c) (kv c) l (heap c) (brk c).

Definition set_heap (h : gmap ptr (kvItem V)) c : cache V :=
  Cache (cap c) (kv c) (freqList c) h (brk c).

(** Allocation of a fresh address. *)
Definition alloc c : ptr * cache V :=
  (brk c, Cache (cap c) (kv c) (freqList c) (heap c) (S (brk c))).

Definition New (cap : Z) : cache V := Cache cap ∅ [] ∅ 0.

Definition Size c : nat := size (kv c).

(** [increment]; [None] is a fault (a nil or dangling pointer).  The
    embedding follows the code on the states where [item.parent] is an
    element of the list, which [reachable_wf] shows to be all the states the
    program reaches.  On an element removed from the list Go still reads
    [curr.Value], and the list calls do nothing; the embedding gives [None]
    there. *)
Definition increment (item : ptr) c : option (cache V) :=
  it ← heap c !! item;
  curr ← parent it;
  currE ← List.find curr (freqList c);
  let currNode := Value currE in
  let next := List.Next curr (freqList c) in
  let fresh_bucket :=
    let '(a, c') := alloc c in
    set_freqList
      (List.InsertAfter a (FreqNode (Int.add (freq currNode) 1) {[item]})
         curr (freqList c')) c' in
  let c1 :=
    match next with
    | None => fresh_bucket
    | Some nextE =>
        if bool_decide (Int.add (freq currNode) 1 ≠ freq (Value nextE))
        then fresh_bucket
        else set_freqList (List.update (self nextE) (addItem item) (freqList c)) c
    end in
  let c2 :=
    set_heap
      (<[item := KvItem (k it) (v it) (self <$> List.Next curr (freqList c1))]>
         (heap c1)) c1 in
  let c3 := set_freqList (List.update curr (delItem item) (freqList c2)) c2 in
  currE' ← List.find curr (freqList c3);
  if decide (size (items (Value currE')) = 0)
  then Some (set_freqList (List.Remove curr (freqList c3)) c3)
  else Some c3.

(** The member the [range] loop visits next. *)
Definition choose (pick : oracle) (s : gset ptr) : option ptr :=
  let l := elements s in l !! (pick l `mod` length l).

(** The inner loop of [Evict]: [for item := range frontNode.items].
    [m] bounds the number of iterations by the number of members. *)
Fixpoint rangeItems (m : nat) (pick : oracle) (n : Z)
    (h : gmap ptr (kvItem V)) (s : gset ptr) (idx : gmap string ptr) (i : Z)
  : option (gset ptr * gmap string ptr * Z) :=
  match m with
  | O => Some (s, idx, i)
  | S m' =>
      match choose pick s with
      | None => Some (s, idx, i)
      | Some item =>
          it ← h !! item;
          let idx' := delete (k it) idx in
          let s' := s ∖ {[item]} in
          let i' := Int.add i 1 in
          if decide (i' = n) then Some (s', idx', i')
          else rangeItems m' pick n h s' idx' i'
      end
  end.

(** The outer loop of [Evict]; [None] when the fuel runs out or on a
    dangling item pointer. *)
Fixpoint evictLoop (fuel : nat) (pick : oracle) (n : Z) (i : Z) c
  : option (cache V) :=
  match fuel with
  | O => None
  | S fuel' =>
      if decide (i = n ∨ List.Len (freqList c) = 0) then Some c
      else
        front ← List.Front (freqList c);
        let frontNode := Value front in
        '(s, idx, i') ← rangeItems (size (items frontNode)) pick n (heap c)
                          (items frontNode) (kv c) i;
        let c1 :=
          set_kv idx
            (set_freqList
               (List.update (self front) (λ x, FreqNode (freq x) s) (freqList c))
               c) in
        let c2 :=
          if decide (size s = 0)
          then set_freqList (List.Remove (self front) (freqList c1)) c1
          else c1 in
        evictLoop fuel' pick n i' c2
  end.

(** Every round of the outer loop removes a member or a bucket. *)
Definition evictFuel c : nat :=
  S (foldr (λ e acc, size (items (Value e)) + acc) 0 (freqList c)
     + List.Len (freqList c)).

Definition Evict (pick : oracle) (n : Z) c : option (cache V) :=
  if decide (n ≤ 0)%Z then Some c
  else evictLoop (evictFuel c) pick n 0 c.

(** [Set] (spelled [Set_], [Set] being reserved) in three pieces, cut where the mutex is taken and released:
    the unlocked capacity test, the call of [Evict], and the body that
    runs under the lock. *)
Definition Set_full c : bool :=
  bool_decide (0 < cap c)%Z && bool_decide (cap c ≤ Z.of_nat (size (kv c)))%Z.

Definition Set_locked (key : string) (val : V) c : option (cache V) :=
  match kv c !! key with
  | Some item =>
      it ← heap c !! item;
      increment item (set_heap (<[item := KvItem (k it) val (parent it)]> (heap c)) c)
  | None =>
      let front := List.Front (freqList c) in
      let fresh_front :=
        let '(a, c1) := alloc c in
        let c2 := set_freqList (List.PushFront a (FreqNode 1 ∅) (freqList c1)) c1 in
        let '(item, c3) := alloc c2 in
        let c4 :=
          set_heap
            (<[item := KvItem key val (self <$> List.Front (freqList c3))]> (heap c3))
            c3 in
        let c5 := set_freqList (List.update a (addItem item) (freqList c4)) c4 in
        set_kv (<[key := item]> (kv c5)) c5 in
      match front with
      | None => Some fresh_front
      | Some frontE =>
          if bool_decide (List.Len (freqList c) = 0 ∨ freq (Value frontE) ≠ 1%Z)
          then Some fresh_front
          else
            let '(item, c1) := alloc c in
            let c2 :=
              set_heap (<[item := KvItem key val (Some (self frontE))]> (heap c1)) c1 in
            let c3 :=
              set_freqList (List.update (self frontE) (addItem item) (freqList c2)) c2 in
            Some (set_kv (<[key := item]> (kv c3)) c3)
      end
  end.

Definition Set_ (pick : oracle) (key : string) (val : V) c : option (cache V) :=
  c' ← (if Set_full c then Evict pick 1 c else Some c);
  Set_locked key val c'.

(** [Get]: the result is [Some v] for [(v, true)] and [None] for [(nil, false)]. *)
Definition Get (key : string) c : option (option V * cache V) :=
  match kv c !! key with
  | None => Some (None, c)
  | Some item =>
      it ← heap c !! item;
      c' ← increment item c;
      Some (Some (v it), c')
  end.

(** ** Traces of calls *)

Inductive call : Type :=
| CSet (pick : oracle) (key : string) (val : V)
| CGet (key : string)
| CEvict (pick : oracle) (n : Z).

Definition exec (o : call) c : option (cache V) :=
  match o with
  | CSet pick key val => Set_ pick key val c
  | CGet key => snd <$> Get key c
  | CEvict pick n => Evict pick n c
  end.

Fixpoint run (os : list call) c : option (cache V) :=
  match os with
  | [] => Some c
  | o :: os' => c' ← exec o c; run os' c'
  end.

Definition reachable (cap0 : Z) c : Prop :=
  ∃ os, run os (New cap0) = Some c.

(** ** Observations *)

(** The frequency of a live key: the [freq] of the node its item points to. *)
Definition freqOf (key : string) c : option Z :=
  item ← kv c !! key;
  it ← heap c !! item;
  curr ← parent it;
  e ← List.find curr (freqList c);
  Some (freq (Value e)).

Definition valueOf (key : string) c : option V :=
  item ← kv c !! key;
  it ← heap c !! item;
  Some (v it).

Definition freqs c : list Z := (freq ∘ Value) <$> freqList c.

Definition members c : nat :=
  foldr (λ e acc, size (items (Value e)) + acc) 0 (freqList c).
End Operations.

(** ** Sequences of [Set] calls *)

Definition sets {V : Type} (l : list (oracle * string * V)) : list (call (V:=V)) :=
  (λ x, CSet x.1.1 x.1.2 x.2) <$> l.

Definition keys {V : Type} (l : list (oracle * string * V)) : list string :=
  (λ x, x.1.2) <$> l.

(** ** Concurrent callers *)

(** The mutex makes the body of [Evict] and the locked part of [Set] atomic.
    A caller of [Set] therefore takes up to three steps that other callers
    can come between: the capacity test, which reads [len(c.kv)] before the
    lock is taken, the call of [Evict(1)], which takes and releases the
    lock, and the locked body. *)
Inductive pc : Type := PcCheck | PcEvict | PcInsert | PcDone.

Record thread (V : Type) : Type := Thread {
  th_pick : oracle;
  th_key : string;
  th_val : V;
  th_pc : pc
}.
Arguments Thread {V}.
Arguments th_pick {V}.
Arguments th_key {V}.
Arguments th_val {V}.
Arguments th_pc {V}.

Section Callers.
Context {V : Type}.
Implicit Types (c : cache V) (t : thread V).

Definition at_pc (p : pc) t : thread V :=
  Thread (th_pick t) (th_key t) (th_val t) p.

(** One atomic step of a caller of [Set]; [None] when it has returned. *)
Definition thread_step t c : option (thread V * cache V) :=
  match th_pc t with
  | PcCheck => Some (at_pc (if Set_full c then PcEvict else PcInsert) t, c)
  | PcEvict => c' ← Evict (th_pick t) 1 c; Some (at_pc PcInsert t, c')
  | PcInsert => c' ← Set_locked (th_key t) (th_val t) c; Some (at_pc PcDone t, c')
  | PcDone => None
  end.

(** A caller running alone, for at most [fuel] steps. *)
Fixpoint alone (fuel : nat) t c : option (cache V) :=
  match fuel with
  | O => None
  | S fuel' =>
      match th_pc t with
      | PcDone => Some c
      | _ => '(t', c') ← thread_step t c; alone fuel' t' c'
      end
  end.

(** Two callers under a schedule: [true] lets the first one step. *)
Fixpoint interleave (sched : list bool) (t1 t2 : thread V) c
  : option (thread V * thread V * cache V) :=
  match sched with
  | [] => Some (t1, t2, c)
  | true :: sched' => '(t1', c') ← thread_step t1 c; interleave sched' t1' t2 c'
  | false :: sched' => '(t2', c') ← thread_step t2 c; interleave sched' t1 t2' c'
  end.
End Callers.

(** ** The representation invariant *)

(** [wf c]: the links of the structure agree.  Element addresses are
    distinct, no bucket is empty, every indexed key leads to an item carrying
    that key which sits in a bucket of the list, every member of a bucket is
    an item whose [parent] is that bucket and which the index maps its key to,
    and every address in use lies below the allocator's mark. *)
Record wf {V : Type} (c : cache V) : Prop := {
  wf_nodup : NoDup (self <$> freqList c);
  wf_nonempty : ∀ e, e ∈ freqList c → items (Value e) ≠ ∅;
  wf_kv : ∀ key item, kv c !! key = Some item →
    ∃ it e, heap c !! item = Some it ∧ k it = key
            ∧ e ∈ freqList c ∧ item ∈ items (Value e);
  wf_items : ∀ e item, e ∈ freqList c → item ∈ items (Value e) →
    ∃ it, heap c !! item = Some it ∧ parent it = Some (self e)
          ∧ kv c !! k it = Some item;
  wf_brk_list : ∀ e, e ∈ freqList c → self e < brk c;
  wf_brk_heap : ∀ item, is_Some (heap c !! item) → item < brk c
}.

(** [ordered c]: frequencies increase strictly along the list and are at
    least 1. *)
Definition ordered {V : Type} (c : cache V) : Prop :=
  StronglySorted Z.lt (freqs c) ∧ Forall (λ f, 1 ≤ f)%Z (freqs c).

(** [bounded B c]: no frequency exceeds [B]. *)
Definition bounded {V : Type} (B : Z) (c : cache V) : Prop :=
  Forall (λ f, f ≤ B)%Z (freqs c).

(** What a call guarantees about the order of frequencies: if no frequency
    exceeds [B] before, with [B] below the largest [int], none exceeds
    [B + 1] after. *)
Definition keeps_order {V : Type} (c c' : cache V) : Prop :=
  ∀ B, ordered c → bounded B c → (0 ≤ B < Int.max_int)%Z →
       ordered c' ∧ bounded (B + 1) c'.

(** ** Vocabulary of the proofs *)

(** The bucket an item moves to, and what follows it in the list: the next
    element when its frequency is [f1], a new element at address [a]
    otherwise. *)
Definition target (item : ptr) (f1 : Z) (a : ptr) (post : list Element)
  : Element * list Element :=
  match post with
  | nx :: post' =>
      if bool_decide (f1 = freq (Value nx))
      then (MkElement (self nx) (addItem item (Value nx)), post')
      else (MkElement a (FreqNode f1 {[item]}), post)
  | [] => (MkElement a (FreqNode f1 {[item]}), [])
  end.

(** What is left of the bucket an item leaves. *)
Definition residue (item : ptr) (e : Element) : list Element :=
  if decide (size (items (Value e) ∖ {[item]}) = 0) then []
  else [MkElement (self e) (delItem item (Value e))].

(** The state after item [item], found in bucket [e] between [pre] and
    [post], has moved to the bucket for frequency [f1]. *)
Definition moved {V : Type} (c : cache V) (item : ptr) (it : kvItem V)
    (e : Element) (pre post : list Element) (f1 : Z) (b : ptr) : cache V :=
  let tp := target item f1 (brk c) post in
  Cache (cap c) (kv c) (pre ++ residue item e ++ tp.1 :: tp.2)
    (<[item := KvItem (k it) (v it) (Some (self tp.1))]> (heap c)) b.

(** The new item joins the front bucket when that has frequency 1, and a new
    front bucket otherwise. *)
Definition placed {V : Type} (c : cache V) (key : string) (val : V) : cache V :=
  let fresh_front :=
    Cache (cap c) (<[key := S (brk c)]> (kv c))
      (MkElement (brk c) (FreqNode 1 {[S (brk c)]}) :: freqList c)
      (<[S (brk c) := KvItem key val (Some (brk c))]> (heap c)) (S (S (brk c))) in
  match freqList c with
  | frontE :: rest =>
      if bool_decide (freq (Value frontE) = 1%Z)
      then Cache (cap c) (<[key := brk c]> (kv c))
             (MkElement (self frontE) (addItem (brk c) (Value frontE)) :: rest)
             (<[brk c := KvItem key val (Some (self frontE))]> (heap c)) (S (brk c))
      else fresh_front
  | [] => fresh_front
  end.

(** The state after one round of the outer loop has left [s'] of the front
    bucket and [idx'] of the index. *)
Definition trimmed {V : Type} (c : cache V) (front : Element)
    (rest : list Element) (s' : gset ptr) (idx' : gmap string ptr) : cache V :=
  Cache (cap c) idx'
    (if decide (size s' = 0) then rest
     else MkElement (self front) (FreqNode (freq (Value front)) s') :: rest)
    (heap c) (brk c).

(** Buckets leave at the front, whole or in part. *)
Inductive shrunk : list Element → list Element → Prop :=
| shrunk_refl l : shrunk l l
| shrunk_drop e l l' : shrunk l l' → shrunk (e :: l) l'
| shrunk_trim e s' l l' :
    s' ⊆ items (Value e) →
    shrunk (MkElement (self e) (FreqNode (freq (Value e)) s') :: l) l' →
    shrunk (e :: l) l'.

(** All members of all buckets. *)
Definition allItems (l : list Element) : gset ptr :=
  ⋃ ((items ∘ Value) <$> l).

(** ** Vocabulary of the further properties *)

(** The key a call is about. *)
Definition subject {V : Type} (o : call (V:=V)) : option string :=
  match o with
  | CSet _ key _ => Some key
  | CGet key => Some key
  | CEvict _ _ => None
  end.

(** [key] is undisturbed from [c] to [c']: it is gone, or it has the item,
    the value and the frequency it had. *)
Definition undisturbed {V : Type} (key : string) (c c' : cache V) : Prop :=
  kv c' !! key = None
  ∨ (kv c' !! key = kv c !! key
     ∧ valueOf key c' = valueOf key c
     ∧ freqOf key c' = freqOf key c).

(** Every bucket of [l'] is a bucket of [l] with the same address and the
    same frequency, or sits at an address from [b] on. *)
Definition same_freqs (b : ptr) (l l' : list Element) : Prop :=
  ∀ e', e' ∈ l' →
    (∃ e, e ∈ l ∧ self e = self e' ∧ freq (Value e) = freq (Value e'))
    ∨ b ≤ self e'.

(** The number of calls in a sequence that are about [key]. *)
Definition accesses {V : Type} (key : string) (os : list (call (V:=V))) : nat :=
  length (filter (λ o, subject o = Some key) os).

(** The shape of the bucket list: address, frequency and number of members
    of each bucket. *)
Definition profile {V : Type} (c : cache V) : list (ptr * Z * nat) :=
  (λ e, (self e, freq (Value e), size (items (Value e)))) <$> freqList c.

(** Taking [n] members away from the front of a shape. *)
Fixpoint drain (l : list (ptr * Z * nat)) (n : nat) : list (ptr * Z * nat) :=
  match l with
  | [] => []
  | (a, f, sz) :: rest =>
      if decide (n = 0) then l
      else if decide (sz ≤ n) then drain rest (n - sz)
      else (a, f, sz - n) :: rest
  end.

(** ** Sample states *)

(** An oracle: always the first remaining member. *)
Definition first : oracle := λ _, 0.

(** Three keys set on an unbounded cache. *)
Definition demo3 : cache Z :=
  default (New 0)
    (run [CSet first "a" 1%Z; CSet first "b" 2%Z; CSet first "c" 3%Z] (New 0)).

(** Capacity 2, two keys, ["a"] read once. *)
Definition demo2 : cache Z :=
  default (New 2)
    (run [CSet first "a" 1%Z; CSet first "b" 2%Z; CGet "a"] (New 2)).

(** Capacity 1, full with the one key ["a"]. *)
Definition demo1 : cache Z :=
  default (New 1) (run [CSet first "a" 1%Z] (New 1)).

(** Capacity 2, full with two keys of the same frequency. *)
Definition demo_tied : cache Z :=
  default (New 2) (run [CSet first "a" 1%Z; CSet first "b" 2%Z] (New 2)).

(** * Facts *)

(** ** Machine integers *)

Lemma wrap_in_range z : Int.in_range z → Int.wrap z = z.
Proof.
  unfold Int.in_range, Int.wrap, Int.min_int, Int.max_int. intros Hz.
  rewrite Z.mod_small; lia.
Qed.

Lemma add_small a b : Int.in_range (a + b) → Int.add a b = (a + b)%Z.
Proof. apply wrap_in_range. Qed.

(** ** Facts about the list operations *)

Section ListFacts.
Implicit Types (l pre post : list Element) (e : Element).

Lemma find_Some mark l e :
  List.find mark l = Some e →
  ∃ pre post, l = pre ++ e :: post ∧ self e = mark ∧ mark ∉ self <$> pre.
Proof.
  induction l as [|e0 l IH]; simpl; [done|].
  destruct (decide (self e0 = mark)) as [Heq|Hne].
  - intros [= ->]. exists [], l. split_and!; [done|done|]. simpl. apply not_elem_of_nil.
  - intros (pre & post & -> & Hs & Hn)%IH.
    exists (e0 :: pre), post. split_and!; [done|done|].
    rewrite fmap_cons. rewrite not_elem_of_cons. auto.
Qed.

Lemma find_elem_of mark l e : List.find mark l = Some e → e ∈ l ∧ self e = mark.
Proof.
  intros (pre & post & -> & Hs & _)%find_Some. split; [|done].
  apply elem_of_app. right. apply elem_of_cons. by left.
Qed.

Lemma find_None mark l : List.find mark l = None ↔ mark ∉ self <$> l.
Proof.
  induction l as [|e0 l IH]; simpl.
  - split; [intros _; apply not_elem_of_nil | done].
  - destruct (decide (self e0 = mark)) as [Heq|Hne].
    + split; [done|]. intros []. rewrite <- Heq. apply elem_of_cons. by left.
    + rewrite IH, not_elem_of_cons.
      split; [intros; split; [congruence|done] | by intros [_ ?]].
Qed.

Section Split.
Variables (pre post : list Element) (e : Element).
Hypothesis Hpre : self e ∉ self <$> pre.

Lemma find_split : List.find (self e) (pre ++ e :: post) = Some e.
Proof using Hpre.
  induction pre as [|e0 l IH]; simpl.
  - by rewrite decide_True.
  - rewrite fmap_cons, not_elem_of_cons in Hpre. destruct Hpre as [Hne Hl].
    rewrite decide_False by done. by apply IH.
Qed.

Lemma Next_split : List.Next (self e) (pre ++ e :: post) = head post.
Proof using Hpre.
  induction pre as [|e0 l IH]; simpl.
  - by rewrite decide_True.
  - rewrite fmap_cons, not_elem_of_cons in Hpre. destruct Hpre as [Hne Hl].
    rewrite decide_False by done. by apply IH.
Qed.

Lemma InsertAfter_split a x :
  List.InsertAfter a x (self e) (pre ++ e :: post)
  = pre ++ e :: MkElement a x :: post.
Proof using Hpre.
  induction pre as [|e0 l IH]; simpl.
  - by rewrite decide_True.
  - rewrite fmap_cons, not_elem_of_cons in Hpre. destruct Hpre as [Hne Hl].
    rewrite decide_False by done. f_equal. by apply IH.
Qed.

Lemma Remove_split : List.Remove (self e) (pre ++ e :: post) = pre ++ post.
Proof using Hpre.
  induction pre as [|e0 l IH]; simpl.
  - by rewrite decide_True.
  - rewrite fmap_cons, not_elem_of_cons in Hpre. destruct Hpre as [Hne Hl].
    rewrite decide_False by done. f_equal. by apply IH.
Qed.

Lemma update_split f :
  List.update (self e) f (pre ++ e :: post)
  = pre ++ MkElement (self e) (f (Value e)) :: post.
Proof using Hpre.
  induction pre as [|e0 l IH]; simpl.
  - by rewrite decide_True.
  - rewrite fmap_cons, not_elem_of_cons in Hpre. destruct Hpre as [Hne Hl].
    rewrite decide_False by done. f_equal. by apply IH.
Qed.
End Split.

Lemma NoDup_split pre post e :
  NoDup (self <$> (pre ++ e :: post)) →
  (self e ∉ self <$> pre) ∧ (self e ∉ self <$> post)
  ∧ NoDup (self <$> (pre ++ post)).
Proof.
  rewrite !fmap_app, fmap_cons. intros Hnd.
  apply NoDup_app in Hnd as (Hpre & Hdisj & Hpost).
  apply NoDup_cons in Hpost as [Hne Hpost].
  split_and!; [| done |].
  - intros Hin. apply (Hdisj _ Hin). apply elem_of_cons. by left.
  - apply NoDup_app. split_and!; [done| |done].
    intros x Hx Hx'. apply (Hdisj _ Hx). apply elem_of_cons. by right.
Qed.

Lemma elem_of_self e l : e ∈ l → self e ∈ self <$> l.
Proof. intros. by apply list_elem_of_fmap_2. Qed.

(** In a list without repeated addresses an element is determined by its
    address. *)
Lemma NoDup_self_inj l e1 e2 :
  NoDup (self <$> l) → e1 ∈ l → e2 ∈ l → self e1 = self e2 → e1 = e2.
Proof.
  induction l as [|e0 l IH]; [by intros _ ?%elem_of_nil|].
  rewrite fmap_cons. intros [Hn Hnd]%NoDup_cons.
  intros [->|H1]%elem_of_cons [->|H2]%elem_of_cons Heq; [done| | |by apply IH].
  - destruct Hn. rewrite Heq. by apply elem_of_self.
  - destruct Hn. rewrite <- Heq. by apply elem_of_self.
Qed.
End ListFacts.

(** ** What [increment] does to a well-linked state *)

Section Increment.
Context {V : Type}.
Implicit Types (c : cache V) (it : kvItem V).

Lemma increment_run c item it e pre post :
  heap c !! item = Some it →
  parent it = Some (self e) →
  freqList c = pre ++ e :: post →
  NoDup (self <$> freqList c) →
  let tp := target item (Int.add (freq (Value e)) 1) (brk c) post in
  ∃ b, brk c ≤ b ≤ S (brk c) ∧ (self tp.1 < b ∨ self tp.1 ∈ self <$> post) ∧
    increment item c =
      Some (Cache (cap c) (kv c) (pre ++ residue item e ++ tp.1 :: tp.2)
              (<[item := KvItem (k it) (v it) (Some (self tp.1))]> (heap c)) b).
Proof.
  intros Hit Hpar Hl Hnd. simpl.
  rewrite Hl in Hnd. destruct (NoDup_split _ _ _ Hnd) as (Hpre & Hpost & Hnd').
  unfold increment. rewrite Hit. simpl. rewrite Hpar. simpl.
  rewrite Hl, (find_split _ _ _ Hpre). simpl.
  rewrite (Next_split _ _ _ Hpre).
  assert (Hfresh : ∀ x,
    let l1 := pre ++ e :: MkElement (brk c) x :: post in
    ∃ b, brk c ≤ b ≤ S (brk c) ∧ self (MkElement (brk c) x) < b ∧
     (currE' ← List.find (self e) (List.update (self e) (delItem item) l1);
      if decide (size (items (Value currE')) = 0)
      then Some (Cache (cap c) (kv c)
             (List.Remove (self e) (List.update (self e) (delItem item) l1))
             (<[item := KvItem (k it) (v it) (self <$> List.Next (self e) l1)]> (heap c))
             (S (brk c)))
      else Some (Cache (cap c) (kv c) (List.update (self e) (delItem item) l1)
             (<[item := KvItem (k it) (v it) (self <$> List.Next (self e) l1)]> (heap c))
             (S (brk c))))
     = Some (Cache (cap c) (kv c)
               (pre ++ residue item e ++ MkElement (brk c) x :: post)
               (<[item := KvItem (k it) (v it) (Some (brk c))]> (heap c)) b)).
  { intros x l1. exists (S (brk c)). split; [lia|]. split; [simpl; lia|].
    subst l1. rewrite (Next_split _ _ _ Hpre). simpl.
    rewrite (update_split _ _ _ Hpre).
    pose proof (find_split pre (MkElement (brk c) x :: post)
                  (MkElement (self e) (delItem item (Value e))) Hpre) as Hf.
    simpl in Hf. rewrite Hf. simpl.
    pose proof (Remove_split pre (MkElement (brk c) x :: post)
                  (MkElement (self e) (delItem item (Value e))) Hpre) as Hr.
    simpl in Hr. rewrite Hr. unfold residue.
    destruct (decide (size (items (Value e) ∖ {[item]}) = 0)); simpl; done. }
  destruct post as [|nx post']; simpl.
  - rewrite (InsertAfter_split _ _ _ Hpre).
    destruct (Hfresh (FreqNode (Int.add (freq (Value e)) 1) {[item]}))
      as (b & Hb & Hlt & Heq).
    exists b. split; [done|]. split; [by left|]. exact Heq.
  - destruct (bool_decide (Int.add (freq (Value e)) 1 = freq (Value nx))) eqn:Hm.
    + apply bool_decide_eq_true in Hm.
      rewrite bool_decide_eq_false_2 by (intros Hne; by apply Hne).
      simpl.
      assert (Hnx : self nx ∉ self <$> (pre ++ [e])).
      { apply NoDup_split with (post := post'). by rewrite <- app_assoc. }
      assert (Hu : List.update (self nx) (addItem item) (pre ++ e :: nx :: post')
                   = pre ++ e :: MkElement (self nx) (addItem item (Value nx)) :: post').
      { replace (pre ++ e :: nx :: post') with ((pre ++ [e]) ++ nx :: post')
          by (by rewrite <- app_assoc).
        rewrite (update_split _ _ _ Hnx). by rewrite <- app_assoc. }
      rewrite Hu.
      rewrite (Next_split _ _ _ Hpre). simpl.
      rewrite (update_split _ _ _ Hpre).
      pose proof (find_split pre (MkElement (self nx) (addItem item (Value nx)) :: post')
                    (MkElement (self e) (delItem item (Value e))) Hpre) as Hf.
      simpl in Hf. rewrite Hf. simpl.
      pose proof (Remove_split pre (MkElement (self nx) (addItem item (Value nx)) :: post')
                    (MkElement (self e) (delItem item (Value e))) Hpre) as Hr.
      simpl in Hr. rewrite Hr.
      exists (brk c). split; [lia|]. split.
      { right. simpl. apply elem_of_cons. by left. }
      unfold residue.
      destruct (decide (size (items (Value e) ∖ {[item]}) = 0)); simpl; done.
    + apply bool_decide_eq_false in Hm.
      rewrite bool_decide_eq_true_2 by done.
      rewrite (InsertAfter_split _ _ _ Hpre).
      destruct (Hfresh (FreqNode (Int.add (freq (Value e)) 1) {[item]}))
        as (b & Hb & Hlt & Heq).
      exists b. split; [done|]. split; [by left|]. exact Heq.
Qed.
End Increment.

(** ** First consequences of the invariant *)

Section WfFacts.
Context {V : Type}.
Implicit Types (c : cache V) (it : kvItem V).

Lemma wf_New cap0 : wf (New (V:=V) cap0).
Proof.
  split; simpl.
  - apply NoDup_nil_2.
  - by intros e ?%elem_of_nil.
  - intros key item. by rewrite lookup_empty.
  - by intros e item ?%elem_of_nil.
  - by intros e ?%elem_of_nil.
  - intros item [x Hx]. by rewrite lookup_empty in Hx.
Qed.

(** A live key determines its item, its bucket and the place of the bucket. *)
Lemma wf_lookup c key item :
  wf c → kv c !! key = Some item →
  ∃ it e pre post,
    heap c !! item = Some it ∧ k it = key ∧ parent it = Some (self e)
    ∧ freqList c = pre ++ e :: post ∧ item ∈ items (Value e).
Proof.
  intros Hwf Hkv.
  destruct (wf_kv _ Hwf _ _ Hkv) as (it & e & Hit & Hk & He & Hin).
  destruct (wf_items _ Hwf _ _ He Hin) as (it' & Hit' & Hpar & _).
  assert (it' = it) as -> by congruence.
  apply list_elem_of_split in He as (pre & post & Hl).
  by exists it, e, pre, post.
Qed.

(** A member of two buckets of the list is a member of one bucket. *)
Lemma wf_bucket_unique c e1 e2 item :
  wf c → e1 ∈ freqList c → e2 ∈ freqList c →
  item ∈ items (Value e1) → item ∈ items (Value e2) → e1 = e2.
Proof.
  intros Hwf H1 H2 Hi1 Hi2.
  destruct (wf_items _ Hwf _ _ H1 Hi1) as (it1 & Hit1 & Hp1 & _).
  destruct (wf_items _ Hwf _ _ H2 Hi2) as (it2 & Hit2 & Hp2 & _).
  apply (NoDup_self_inj (freqList c)); [by apply wf_nodup|done|done|].
  congruence.
Qed.

(** The index is injective. *)
Lemma wf_kv_inj c key1 key2 item :
  wf c → kv c !! key1 = Some item → kv c !! key2 = Some item → key1 = key2.
Proof.
  intros Hwf H1 H2.
  destruct (wf_kv _ Hwf _ _ H1) as (it1 & _ & Hit1 & Hk1 & _).
  destruct (wf_kv _ Hwf _ _ H2) as (it2 & _ & Hit2 & Hk2 & _).
  congruence.
Qed.
End WfFacts.

(** ** Moving an item keeps the invariant *)

Lemma elem_of_residue item e e' :
  e' ∈ residue item e ↔
  e' = MkElement (self e) (delItem item (Value e)) ∧ items (Value e) ∖ {[item]} ≠ ∅.
Proof.
  unfold residue. destruct (decide _) as [Hz|Hz].
  - apply size_empty_iff, leibniz_equiv in Hz. split; [by intros ?%elem_of_nil|].
    by intros [_ []].
  - rewrite list_elem_of_singleton. split; [|by intros [? _]].
    intros ->. split; [done|]. intros Hemp. apply Hz. by rewrite Hemp, size_empty.
Qed.

Lemma residue_eq item e :
  residue item e
  = if decide (items (Value e) ∖ {[item]} = ∅) then []
    else [MkElement (self e) (delItem item (Value e))].
Proof.
  unfold residue.
  destruct (decide (size _ = 0)) as [Hz|Hz], (decide (_ = ∅)) as [He|He]; try done.
  - destruct He. by apply leibniz_equiv, size_empty_iff.
  - destruct Hz. by rewrite He, size_empty.
Qed.

Lemma target_props item f1 a post :
  NoDup (self <$> post) → a ∉ self <$> post →
  let T := (target item f1 a post).1 in
  let P := (target item f1 a post).2 in
  NoDup (self T :: (self <$> P))
  ∧ (∀ x, x ∈ self T :: (self <$> P) → x = a ∨ x ∈ self <$> post)
  ∧ item ∈ items (Value T)
  ∧ (∀ e', e' ∈ P → e' ∈ post)
  ∧ (∀ e', e' ∈ post →
       e' ∈ P ∨ (self e' = self T ∧ items (Value e') ⊆ items (Value T)))
  ∧ (∀ item', item' ∈ items (Value T) →
       item' = item
       ∨ ∃ e', e' ∈ post ∧ self e' = self T ∧ item' ∈ items (Value e')).
Proof.
  intros Hnd Ha. unfold target.
  assert (Hfresh :
    let T := MkElement a (FreqNode f1 {[item]}) in
    NoDup (self T :: (self <$> post))
    ∧ (∀ x, x ∈ self T :: (self <$> post) → x = a ∨ x ∈ self <$> post)
    ∧ item ∈ items (Value T)
    ∧ (∀ e', e' ∈ post → e' ∈ post)
    ∧ (∀ e', e' ∈ post →
         e' ∈ post ∨ (self e' = self T ∧ items (Value e') ⊆ items (Value T)))
    ∧ (∀ item', item' ∈ items (Value T) →
         item' = item
         ∨ ∃ e', e' ∈ post ∧ self e' = self T ∧ item' ∈ items (Value e'))).
  { simpl. split_and!.
    - by apply NoDup_cons.
    - intros x [->|Hx]%elem_of_cons; auto.
    - by apply elem_of_singleton.
    - done.
    - auto.
    - intros item' ->%elem_of_singleton. by left. }
  destruct post as [|nx post']; [exact Hfresh|].
  destruct (bool_decide (f1 = freq (Value nx))); [|exact Hfresh].
  clear Hfresh. simpl. split_and!.
  - done.
  - auto.
  - apply elem_of_union. left. by apply elem_of_singleton.
  - intros e' He'. apply elem_of_cons. by right.
  - intros e' [->|He']%elem_of_cons; [right|by left].
    split; [done|]. apply union_subseteq_r.
  - intros item' [->%elem_of_singleton|Hi]%elem_of_union; [by left|right].
    exists nx. split_and!; [|done|done]. apply elem_of_cons. by left.
Qed.

Section Moved.
Context {V : Type}.
Variables (c : cache V) (item : ptr) (it : kvItem V) (e : Element).
Variables (pre post : list Element) (f1 : Z) (b : ptr).
Hypothesis Hwf : wf c.
Hypothesis Hit : heap c !! item = Some it.
Hypothesis Hpar : parent it = Some (self e).
Hypothesis Hl : freqList c = pre ++ e :: post.
Hypothesis Hin : item ∈ items (Value e).
Hypothesis Hb : brk c ≤ b.
Hypothesis HT : self (target item f1 (brk c) post).1 < b.

Lemma wf_moved : wf (moved c item it e pre post f1 b).
Proof using Hwf Hit Hpar Hl Hin Hb HT.
  pose proof (wf_nodup _ Hwf) as Hnd. rewrite Hl in Hnd.
  destruct (NoDup_split _ _ _ Hnd) as (Hpre & Hpost & Hnd').
  rewrite fmap_app in Hnd'. apply NoDup_app in Hnd' as (Hndpre & Hdisj & Hndpost).
  assert (Hpre_in : ∀ e', e' ∈ pre → e' ∈ freqList c).
  { intros e' He'. rewrite Hl. apply elem_of_app. by left. }
  assert (Hpost_in : ∀ e', e' ∈ post → e' ∈ freqList c).
  { intros e' He'. rewrite Hl. apply elem_of_app. right. apply elem_of_cons. by right. }
  assert (He : e ∈ freqList c).
  { rewrite Hl. apply elem_of_app. right. apply elem_of_cons. by left. }
  assert (Hbrk : brk c ∉ self <$> post).
  { intros (e' & Heq & He')%list_elem_of_fmap.
    apply Hpost_in, (wf_brk_list _ Hwf) in He'. lia. }
  destruct (target_props item f1 (brk c) post Hndpost Hbrk)
    as (HTnd & HTx & HTi & HP1 & HP2 & HP3).
  revert HT HTnd HTx HTi HP1 HP2 HP3. unfold moved.
  generalize (target item f1 (brk c) post). intros [T P]. simpl.
  intros HT HTnd HTx HTi HP1 HP2 HP3.
  destruct (wf_items _ Hwf _ _ He Hin) as (it0 & Hit0 & _ & Hkit).
  assert (it0 = it) as -> by congruence.
  assert (Hother : ∀ e', e' ∈ pre ∨ e' ∈ post → item ∉ items (Value e')).
  { intros e' He' Hi.
    assert (e' = e) as ->.
    { apply (wf_bucket_unique c e' e item); try done.
      destruct He'; [by apply Hpre_in | by apply Hpost_in]. }
    destruct He' as [He'|He']; [apply Hpre | apply Hpost]; by apply elem_of_self. }
  assert (Hmem : ∀ e', e' ∈ pre ++ residue item e ++ T :: P →
    e' ∈ pre
    ∨ (e' = MkElement (self e) (delItem item (Value e))
       ∧ items (Value e) ∖ {[item]} ≠ ∅)
    ∨ e' = T ∨ e' ∈ P).
  { intros e'. rewrite !elem_of_app, elem_of_cons, elem_of_residue. tauto. }
  split; simpl.
  - rewrite !fmap_app, fmap_cons. apply NoDup_app. split_and!; [done| |].
    + intros x Hx [Hx'|Hx']%elem_of_app.
      * apply list_elem_of_fmap in Hx' as (e' & -> & [-> _]%elem_of_residue).
        by apply Hpre.
      * apply HTx in Hx' as [->|Hx'].
        -- apply list_elem_of_fmap in Hx as (e' & Heq & He').
           apply Hpre_in, (wf_brk_list _ Hwf) in He'. lia.
        -- by apply (Hdisj x).
    + apply NoDup_app. split_and!; [| |done].
      * unfold residue. destruct (decide _); simpl; [apply NoDup_nil_2|].
        apply NoDup_singleton.
      * intros x (e' & -> & [-> _]%elem_of_residue)%list_elem_of_fmap Hx'.
        simpl in Hx'. apply HTx in Hx' as [Hx'|Hx']; [|by apply Hpost].
        apply (wf_brk_list _ Hwf) in He. lia.
  - intros e' [He'|[[-> Hne]|[->|He']]]%Hmem.
    + by apply (wf_nonempty _ Hwf), Hpre_in.
    + done.
    + intros Hemp. rewrite Hemp in HTi. by apply not_elem_of_empty in HTi.
    + by apply (wf_nonempty _ Hwf), Hpost_in, HP1.
  - intros key item' Hk.
    destruct (wf_kv _ Hwf _ _ Hk) as (it' & e'' & Hit' & Hk' & He'' & Hi'').
    destruct (decide (item' = item)) as [->|Hne].
    + assert (it' = it) as -> by congruence.
      exists (KvItem (k it) (v it) (Some (self T))), T. split_and!.
      * apply lookup_insert_eq.
      * done.
      * rewrite !elem_of_app, elem_of_cons. auto.
      * done.
    + rewrite Hl in He''.
      apply elem_of_app in He'' as [He''|[->|He'']%elem_of_cons].
      * exists it', e''. rewrite lookup_insert_ne by done.
        split_and!; [done|done| |done]. apply elem_of_app. by left.
      * exists it', (MkElement (self e) (delItem item (Value e))).
        rewrite lookup_insert_ne by done.
        assert (Hi3 : item' ∈ items (Value e) ∖ {[item]}).
        { apply elem_of_difference. split; [done|]. by rewrite elem_of_singleton. }
        split_and!; [done|done| |done].
        rewrite !elem_of_app, elem_of_residue. right. left. split; [done|].
        intros Hemp. rewrite Hemp in Hi3. by apply not_elem_of_empty in Hi3.
      * rewrite lookup_insert_ne by done.
        destruct (HP2 _ He'') as [HinP|[Hs Hsub]].
        -- exists it', e''. split_and!; [done|done| |done].
           rewrite !elem_of_app, elem_of_cons. auto.
        -- exists it', T. split_and!; [done|done| |by apply Hsub].
           rewrite !elem_of_app, elem_of_cons. auto.
  - intros e' item' [He'|[[-> Hne]|[->|He']]]%Hmem Hi'.
    + assert (item' ≠ item) by (intros ->; by apply (Hother e'); [left|]).
      rewrite lookup_insert_ne by done.
      apply (wf_items _ Hwf); [by apply Hpre_in | done].
    + simpl in Hi'. apply elem_of_difference in Hi' as [Hi' Hne'].
      rewrite elem_of_singleton in Hne'.
      rewrite lookup_insert_ne by done. simpl.
      by apply (wf_items _ Hwf e).
    + destruct (HP3 _ Hi') as [->|(e'' & He'' & Hs & Hi'')].
      * exists (KvItem (k it) (v it) (Some (self T))).
        split_and!; [apply lookup_insert_eq|done|done].
      * assert (item' ≠ item) by (intros ->; by apply (Hother e''); [right|]).
        rewrite lookup_insert_ne by done. rewrite <- Hs.
        apply (wf_items _ Hwf); [by apply Hpost_in | done].
    + assert (item' ≠ item) by (intros ->; by apply (Hother e'); [right; apply HP1|]).
      rewrite lookup_insert_ne by done.
      apply (wf_items _ Hwf); [by apply Hpost_in, HP1 | done].
  - intros e' [He'|[[-> Hne]|[->|He']]]%Hmem.
    + apply Hpre_in, (wf_brk_list _ Hwf) in He'. lia.
    + apply (wf_brk_list _ Hwf) in He. simpl. lia.
    + done.
    + apply HP1, Hpost_in, (wf_brk_list _ Hwf) in He'. lia.
  - intros item' [x Hx].
    destruct (decide (item' = item)) as [->|Hne].
    + assert (item < brk c) by (apply (wf_brk_heap _ Hwf); eauto). lia.
    + rewrite lookup_insert_ne in Hx by done.
      assert (item' < brk c) by (apply (wf_brk_heap _ Hwf); eauto). lia.
Qed.
End Moved.

(** ** Moving an item keeps the order of the frequencies *)

Lemma target_freqs item fe a post :
  StronglySorted Z.lt (fe :: ((freq ∘ Value) <$> post)) →
  let T := (target item (fe + 1) a post).1 in
  let P := (target item (fe + 1) a post).2 in
  freq (Value T) = (fe + 1)%Z
  ∧ StronglySorted Z.lt (freq (Value T) :: ((freq ∘ Value) <$> P))
  ∧ (∀ x, x ∈ (freq ∘ Value) <$> P → x ∈ (freq ∘ Value) <$> post).
Proof.
  intros [Hlt Hs]%StronglySorted_cons. unfold target.
  destruct post as [|nx post']; simpl.
  - split_and!; [done| |done]. repeat constructor.
  - simpl in Hlt, Hs. apply Forall_cons in Hlt as [Hnx Hlt].
    apply StronglySorted_cons in Hs as [Hnxlt Hs].
    destruct (bool_decide (fe + 1 = freq (Value nx))%Z) eqn:Hm; simpl.
    + apply bool_decide_eq_true in Hm. split_and!; [done| |].
      * apply StronglySorted_cons. by split.
      * intros x Hx. apply elem_of_cons. by right.
    + apply bool_decide_eq_false in Hm. split_and!; [done| |done].
      apply StronglySorted_cons. split.
      * apply Forall_cons. split; [lia|].
        eapply Forall_impl; [exact Hnxlt|]. simpl. intros; lia.
      * apply StronglySorted_cons. by split.
Qed.

Section MovedOrder.
Context {V : Type}.
Variables (c : cache V) (item : ptr) (it : kvItem V) (e : Element).
Variables (pre post : list Element) (b : ptr) (B : Z).
Hypothesis Hord : ordered c.
Hypothesis Hbound : bounded B c.
Hypothesis HB : (B < Int.max_int)%Z.
Hypothesis Hl : freqList c = pre ++ e :: post.

Lemma add_freq_exact : Int.add (freq (Value e)) 1 = (freq (Value e) + 1)%Z.
Proof using Hord Hbound HB Hl.
  destruct Hord as [_ Hge]. unfold bounded, freqs in *. rewrite Hl in *.
  rewrite fmap_app, fmap_cons in *.
  apply Forall_app in Hge as [_ [Hge _]%Forall_cons].
  apply Forall_app in Hbound as [_ [Hle _]%Forall_cons]. simpl in *.
  apply add_small. unfold Int.in_range, Int.min_int, Int.max_int in *. lia.
Qed.

Lemma ordered_moved :
  ordered (moved c item it e pre post (Int.add (freq (Value e)) 1) b)
  ∧ bounded (B + 1) (moved c item it e pre post (Int.add (freq (Value e)) 1) b).
Proof using Hord Hbound HB Hl.
  rewrite add_freq_exact.
  destruct Hord as [Hs Hge]. unfold ordered, bounded, freqs, moved in *.
  rewrite Hl in *. simpl.
  rewrite !fmap_app, !fmap_cons in *. simpl in *.
  apply StronglySorted_app in Hs as (Hcross & Hspre & Hspost).
  destruct (target_freqs item (freq (Value e)) (brk c) post Hspost)
    as (HfT & HsT & HP).
  revert HfT HsT HP. generalize (target item (freq (Value e) + 1) (brk c) post).
  intros [T P]. simpl. intros HfT HsT HP.
  apply Forall_app in Hge as [Hgepre [Hgee Hgepost]%Forall_cons].
  apply Forall_app in Hbound as [Hlepre [Hlee Hlepost]%Forall_cons].
  apply StronglySorted_cons in Hspost as [Helt Hspost].
  rewrite Forall_forall in Helt, Hgepost, Hlepost.
  assert (Hres : (freq ∘ Value) <$> residue item e = []
                 ∨ (freq ∘ Value) <$> residue item e = [freq (Value e)]).
  { unfold residue. destruct (decide _); simpl; auto. }
  assert (Htail : ∀ x, x ∈ ((freq ∘ Value) <$> residue item e)
                         ++ freq (Value T) :: ((freq ∘ Value) <$> P) →
            (freq (Value e) ≤ x)%Z ∧ (1 ≤ x)%Z ∧ (x ≤ B + 1)%Z).
  { intros x [Hx|[->|Hx]%elem_of_cons]%elem_of_app.
    - destruct Hres as [Hr|Hr]; rewrite Hr in Hx.
      + by apply elem_of_nil in Hx.
      + apply list_elem_of_singleton in Hx as ->. lia.
    - lia.
    - apply HP in Hx. specialize (Helt _ Hx). specialize (Hgepost _ Hx).
      specialize (Hlepost _ Hx). simpl in *. lia. }
  split_and!.
  - apply StronglySorted_app. split_and!; [|done|].
    + intros x1 x2 Hx1 Hx2. apply Htail in Hx2.
      assert (x1 < freq (Value e))%Z; [|lia].
      apply Hcross; [done|]. apply elem_of_cons. by left.
    + destruct Hres as [Hr|Hr]; rewrite Hr; simpl; [done|].
      apply StronglySorted_cons. split; [|done].
      apply Forall_cons. split; [lia|]. rewrite Forall_forall. intros x Hx.
      apply HP, Helt in Hx. lia.
  - apply Forall_app. split; [done|]. rewrite Forall_forall.
    intros x Hx. by apply Htail in Hx as (_ & ? & _).
  - apply Forall_app. split.
    + eapply Forall_impl; [exact Hlepre|]. simpl. intros; lia.
    + rewrite Forall_forall. intros x Hx. by apply Htail in Hx as (_ & _ & ?).
Qed.
End MovedOrder.

(** ** [increment] on a live key *)

Section IncrementLive.
Context {V : Type}.
Implicit Types (c : cache V) (it : kvItem V).

Lemma increment_live c key item :
  wf c → kv c !! key = Some item →
  ∃ it e pre post b,
    heap c !! item = Some it ∧ k it = key ∧ parent it = Some (self e)
    ∧ freqList c = pre ++ e :: post ∧ item ∈ items (Value e)
    ∧ brk c ≤ b
    ∧ self (target item (Int.add (freq (Value e)) 1) (brk c) post).1 < b
    ∧ increment item c
      = Some (moved c item it e pre post (Int.add (freq (Value e)) 1) b)
    ∧ wf (moved c item it e pre post (Int.add (freq (Value e)) 1) b).
Proof.
  intros Hwf Hkv.
  destruct (wf_lookup c key item Hwf Hkv)
    as (it & e & pre & post & Hit & Hk & Hpar & Hl & Hin).
  destruct (increment_run c item it e pre post Hit Hpar Hl (wf_nodup _ Hwf))
    as (b & Hb & HT & Hrun).
  assert (HT' : self (target item (Int.add (freq (Value e)) 1) (brk c) post).1 < b).
  { destruct HT as [HT|HT]; [done|].
    apply list_elem_of_fmap in HT as (e' & Heq & He'). rewrite Heq.
    assert (self e' < brk c); [|lia].
    apply (wf_brk_list _ Hwf). rewrite Hl. apply elem_of_app. right.
    apply elem_of_cons. by right. }
  exists it, e, pre, post, b. split_and!; try done; [lia|].
  apply wf_moved; try done. lia.
Qed.

(** [item.v = v] touches nothing the invariant speaks of. *)
Lemma wf_set_value c item it val :
  wf c → heap c !! item = Some it →
  wf (set_heap (<[item := KvItem (k it) val (parent it)]> (heap c)) c).
Proof.
  intros Hwf Hit. split; simpl.
  - by apply wf_nodup.
  - by apply wf_nonempty.
  - intros key item' Hk.
    destruct (wf_kv _ Hwf _ _ Hk) as (it' & e & Hit' & Hk' & He & Hi).
    destruct (decide (item' = item)) as [->|Hne].
    + assert (it' = it) as -> by congruence.
      exists (KvItem (k it) val (parent it)), e. by rewrite lookup_insert_eq.
    + exists it', e. by rewrite lookup_insert_ne.
  - intros e item' He Hi.
    destruct (wf_items _ Hwf _ _ He Hi) as (it' & Hit' & Hp & Hk).
    destruct (decide (item' = item)) as [->|Hne].
    + assert (it' = it) as -> by congruence.
      exists (KvItem (k it) val (parent it)). by rewrite lookup_insert_eq.
    + exists it'. by rewrite lookup_insert_ne.
  - by apply wf_brk_list.
  - intros item' [x Hx]. apply (wf_brk_heap _ Hwf).
    destruct (decide (item' = item)) as [->|Hne]; [by eexists|].
    rewrite lookup_insert_ne in Hx by done. by eexists.
Qed.

(** A hit: [Get] returns the stored value and moves the item. *)
Lemma Get_live c key item :
  wf c → kv c !! key = Some item →
  ∃ it e pre post b,
    heap c !! item = Some it ∧ k it = key ∧ parent it = Some (self e)
    ∧ freqList c = pre ++ e :: post ∧ item ∈ items (Value e)
    ∧ brk c ≤ b
    ∧ self (target item (Int.add (freq (Value e)) 1) (brk c) post).1 < b
    ∧ Get key c
      = Some (Some (v it),
              moved c item it e pre post (Int.add (freq (Value e)) 1) b)
    ∧ wf (moved c item it e pre post (Int.add (freq (Value e)) 1) b).
Proof.
  intros Hwf Hkv.
  destruct (increment_live c key item Hwf Hkv)
    as (it & e & pre & post & b & Hit & Hk & Hpar & Hl & Hin & Hb & HT & Hinc & Hwf').
  exists it, e, pre, post, b. split_and!; try done.
  unfold Get. rewrite Hkv, Hit. simpl. by rewrite Hinc.
Qed.

(** A miss: [Get] changes nothing. *)
Lemma Get_absent c key : kv c !! key = None → Get key c = Some (None, c).
Proof. intros Hkv. unfold Get. by rewrite Hkv. Qed.

(** [Set] of a live key under the lock: the value is replaced and the
    item moves. *)
Lemma Set_locked_live c key val item :
  wf c → kv c !! key = Some item →
  ∃ it e pre post b,
    heap c !! item = Some it ∧ k it = key ∧ parent it = Some (self e)
    ∧ freqList c = pre ++ e :: post ∧ item ∈ items (Value e)
    ∧ brk c ≤ b
    ∧ self (target item (Int.add (freq (Value e)) 1) (brk c) post).1 < b
    ∧ Set_locked key val c
      = Some (moved c item (KvItem (k it) val (parent it)) e pre post
                (Int.add (freq (Value e)) 1) b)
    ∧ wf (moved c item (KvItem (k it) val (parent it)) e pre post
            (Int.add (freq (Value e)) 1) b).
Proof.
  intros Hwf Hkv.
  destruct (wf_kv _ Hwf _ _ Hkv) as (it & _ & Hit & Hk & _).
  pose proof (wf_set_value c item it val Hwf Hit) as Hwf'.
  destruct (increment_live _ key item Hwf' Hkv)
    as (it' & e & pre & post & b & Hit' & Hk' & Hpar & Hl & Hin & Hb & HT
        & Hinc & Hwf'').
  simpl in *. rewrite lookup_insert_eq in Hit'. injection Hit' as <-. simpl in *.
  assert (Heq : moved (set_heap (<[item := KvItem (k it) val (parent it)]> (heap c)) c)
                  item (KvItem (k it) val (parent it)) e pre post
                  (Int.add (freq (Value e)) 1) b
                = moved c item (KvItem (k it) val (parent it)) e pre post
                    (Int.add (freq (Value e)) 1) b).
  { unfold moved. simpl. by rewrite insert_insert_eq. }
  exists it, e, pre, post, b. split_and!; try done.
  - unfold Set_locked. rewrite Hkv, Hit. simpl. rewrite Hinc. by rewrite Heq.
  - by rewrite <- Heq.
Qed.
End IncrementLive.

(** ** [Set] of a new key under the lock *)

Section Placed.
Context {V : Type}.
Implicit Types (c : cache V) (it : kvItem V).

Lemma Set_locked_new c key val :
  kv c !! key = None → Set_locked key val c = Some (placed c key val).
Proof.
  intros Hkv. unfold Set_locked, placed. rewrite Hkv.
  destruct (freqList c) as [|frontE rest] eqn:Hl; simpl.
  - rewrite decide_True by done. simpl. rewrite Hl.
    unfold addItem. simpl. by rewrite (right_id_L ∅ (∪)).
  - destruct (bool_decide (freq (Value frontE) = 1%Z)) eqn:Hf.
    + apply bool_decide_eq_true in Hf.
      rewrite bool_decide_eq_false_2.
      * simpl. rewrite Hl. simpl. by rewrite decide_True.
      * intros [?|?]; [done|congruence].
    + apply bool_decide_eq_false in Hf.
      rewrite bool_decide_eq_true_2 by auto.
      simpl. rewrite decide_True by done. simpl. rewrite Hl.
      unfold addItem. simpl. by rewrite (right_id_L ∅ (∪)).
Qed.

Lemma wf_placed c key val : wf c → kv c !! key = None → wf (placed c key val).
Proof.
  intros Hwf Hkv.
  assert (Hold : ∀ item, is_Some (heap c !! item) → item ≠ brk c ∧ item ≠ S (brk c)).
  { intros item Hi. apply (wf_brk_heap _ Hwf) in Hi. lia. }
  assert (Hfresh : wf
    (Cache (cap c) (<[key := S (brk c)]> (kv c))
       (MkElement (brk c) (FreqNode 1 {[S (brk c)]}) :: freqList c)
       (<[S (brk c) := KvItem key val (Some (brk c))]> (heap c)) (S (S (brk c))))).
  { split; simpl.
    - apply NoDup_cons. split; [|by apply wf_nodup].
      intros (e & Heq & He%(wf_brk_list _ Hwf))%list_elem_of_fmap. lia.
    - intros e [->|He]%elem_of_cons; [|by apply (wf_nonempty _ Hwf)].
      simpl. intros Hemp. assert (S (brk c) ∈ (∅ : gset ptr)); [|set_solver].
      rewrite <- Hemp. by apply elem_of_singleton.
    - intros key' item. destruct (decide (key' = key)) as [->|Hne].
      + rewrite lookup_insert_eq. intros [= <-].
        eexists _, _. rewrite lookup_insert_eq. split_and!; [done|done| |].
        * apply elem_of_cons. by left.
        * simpl. by apply elem_of_singleton.
      + rewrite lookup_insert_ne by done. intros Hk.
        destruct (wf_kv _ Hwf _ _ Hk) as (it & e & Hit & Hk' & He & Hi).
        exists it, e. rewrite lookup_insert_ne by (apply not_eq_sym, Hold; eauto).
        split_and!; [done|done| |done]. apply elem_of_cons. by right.
    - intros e item [->|He]%elem_of_cons Hi; simpl in *.
      + apply elem_of_singleton in Hi as ->.
        exists (KvItem key val (Some (brk c))).
        rewrite lookup_insert_eq. simpl. by rewrite lookup_insert_eq.
      + destruct (wf_items _ Hwf _ _ He Hi) as (it & Hit & Hp & Hk).
        exists it. rewrite lookup_insert_ne by (apply not_eq_sym, Hold; eauto).
        rewrite lookup_insert_ne by (intros ->; congruence). done.
    - intros e [->|He%(wf_brk_list _ Hwf)]%elem_of_cons; simpl; lia.
    - intros item [x Hx]. destruct (decide (item = S (brk c))) as [->|Hne]; [lia|].
      rewrite lookup_insert_ne in Hx by done.
      assert (item < brk c) by (apply (wf_brk_heap _ Hwf); eauto). lia. }
  unfold placed. destruct (freqList c) as [|frontE rest] eqn:Hl; [exact Hfresh|].
  destruct (bool_decide (freq (Value frontE) = 1%Z)); [|exact Hfresh].
  clear Hfresh.
  assert (Hin : ∀ e, e ∈ frontE :: rest → e ∈ freqList c) by (by rewrite Hl).
  assert (Hnd : NoDup (self <$> frontE :: rest)).
  { rewrite <- Hl. by apply wf_nodup. }
  split; simpl.
  - done.
  - intros e [->|He]%elem_of_cons.
    + simpl. intros Hemp. assert (brk c ∈ (∅ : gset ptr)); [|set_solver].
      rewrite <- Hemp. apply elem_of_union. left. by apply elem_of_singleton.
    + apply (wf_nonempty _ Hwf), Hin. apply elem_of_cons. by right.
  - intros key' item. destruct (decide (key' = key)) as [->|Hne].
    + rewrite lookup_insert_eq. intros [= <-].
      eexists _, _. rewrite lookup_insert_eq. split_and!; [done|done| |].
      * apply elem_of_cons. by left.
      * simpl. apply elem_of_union. left. by apply elem_of_singleton.
    + rewrite lookup_insert_ne by done. intros Hk.
      destruct (wf_kv _ Hwf _ _ Hk) as (it & e & Hit & Hk' & He & Hi).
      rewrite Hl in He. rewrite lookup_insert_ne by (apply not_eq_sym, Hold; eauto).
      apply elem_of_cons in He as [->|He].
      * exists it, (MkElement (self frontE) (addItem (brk c) (Value frontE))).
        split_and!; [done|done| |].
        -- apply elem_of_cons. by left.
        -- simpl. apply elem_of_union. by right.
      * exists it, e. split_and!; [done|done| |done]. apply elem_of_cons. by right.
  - intros e item [->|He]%elem_of_cons Hi; simpl in *.
    + apply elem_of_union in Hi as [->%elem_of_singleton|Hi].
      * exists (KvItem key val (Some (self frontE))).
        rewrite lookup_insert_eq. simpl. by rewrite lookup_insert_eq.
      * assert (He : frontE ∈ freqList c) by (apply Hin, elem_of_cons; by left).
        destruct (wf_items _ Hwf _ _ He Hi) as (it & Hit & Hp & Hk).
        exists it. rewrite lookup_insert_ne by (apply not_eq_sym, Hold; eauto).
        rewrite lookup_insert_ne by (intros ->; congruence). done.
    + assert (He' : e ∈ freqList c) by (apply Hin, elem_of_cons; by right).
      destruct (wf_items _ Hwf _ _ He' Hi) as (it & Hit & Hp & Hk).
      exists it. rewrite lookup_insert_ne by (apply not_eq_sym, Hold; eauto).
      rewrite lookup_insert_ne by (intros ->; congruence). done.
  - intros e [->|He]%elem_of_cons; simpl.
    + assert (self frontE < brk c); [|lia].
      apply (wf_brk_list _ Hwf), Hin, elem_of_cons. by left.
    + assert (self e < brk c); [|lia].
      apply (wf_brk_list _ Hwf), Hin, elem_of_cons. by right.
  - intros item [x Hx]. destruct (decide (item = brk c)) as [->|Hne]; [lia|].
    rewrite lookup_insert_ne in Hx by done.
    assert (item < brk c) by (apply (wf_brk_heap _ Hwf); eauto). lia.
Qed.

Lemma ordered_placed c key val B :
  ordered c → bounded B c → (0 ≤ B)%Z →
  ordered (placed c key val) ∧ bounded (B + 1) (placed c key val).
Proof.
  intros [Hs Hge] Hle HB. unfold ordered, bounded, freqs, placed in *.
  assert (Hle' : Forall (λ f, f ≤ B + 1)%Z ((freq ∘ Value) <$> freqList c)).
  { eapply Forall_impl; [exact Hle|]. simpl. intros; lia. }
  destruct (freqList c) as [|frontE rest] eqn:Hl; simpl in *.
  - split_and!; repeat constructor; lia.
  - destruct (bool_decide (freq (Value frontE) = 1%Z)) eqn:Hf; simpl.
    + done.
    + apply bool_decide_eq_false in Hf.
      apply Forall_cons in Hge as [Hge1 Hge]. pose proof Hs as Hs'.
      apply StronglySorted_cons in Hs' as [Hlt _].
      split_and!.
      * apply StronglySorted_cons. split; [|done].
        apply Forall_cons. split; [lia|].
        eapply Forall_impl; [exact Hlt|]. simpl. intros; lia.
      * repeat (apply Forall_cons; split); [lia|done|done].
      * apply Forall_cons; split; [lia|done].
Qed.
End Placed.

(** ** The loops of [Evict] *)

Section Range.
Context {V : Type}.
Implicit Types (h : gmap ptr (kvItem V)) (s : gset ptr) (idx : gmap string ptr).

Lemma choose_None pick s : choose pick s = None → s = ∅.
Proof.
  unfold choose. intros Hc. apply leibniz_equiv, elements_empty_iff.
  destruct (elements s) as [|x l] eqn:He; [done|].
  apply lookup_ge_None in Hc.
  pose proof (Nat.mod_upper_bound (pick (x :: l)) (length (x :: l))) as Hlt.
  simpl in *. lia.
Qed.

Lemma choose_Some pick s item : choose pick s = Some item → item ∈ s.
Proof.
  unfold choose. intros Hc. apply elem_of_elements.
  apply list_elem_of_lookup. eauto.
Qed.

Lemma rangeItems_spec pick n h : ∀ m s idx i,
  size s ≤ m →
  (∀ item, item ∈ s → ∃ it, h !! item = Some it ∧ idx !! k it = Some item) →
  (∀ key item, idx !! key = Some item → ∃ it, h !! item = Some it ∧ k it = key) →
  ∃ s' idx' i',
    rangeItems m pick n h s idx i = Some (s', idx', i')
    ∧ s' ⊆ s
    ∧ (s ≠ ∅ → s' ≠ s)
    ∧ (∀ key item, idx' !! key = Some item ↔
                   idx !! key = Some item ∧ (item ∈ s → item ∈ s'))
    ∧ (s' = ∅ ∨ i' = n)
    ∧ size idx' + size s = size idx + size s'
    ∧ ((0 ≤ i < n)%Z → (n ≤ Int.max_int)%Z →
       i' = (i + Z.of_nat (size s) - Z.of_nat (size s'))%Z ∧ (i' ≤ n)%Z).
Proof.
  assert (Hstop : ∀ m s idx i, s = ∅ →
    rangeItems m pick n h s idx i = Some (s, idx, i)).
  { intros m s idx i ->. destruct m; simpl; [done|].
    unfold choose. by rewrite elements_empty. }
  assert (Hnil : ∀ m s idx i, s = ∅ →
    ∃ s' idx' i',
      rangeItems m pick n h s idx i = Some (s', idx', i')
      ∧ s' ⊆ s
      ∧ (s ≠ ∅ → s' ≠ s)
      ∧ (∀ key item, idx' !! key = Some item ↔
                     idx !! key = Some item ∧ (item ∈ s → item ∈ s'))
      ∧ (s' = ∅ ∨ i' = n)
      ∧ size idx' + size s = size idx + size s'
      ∧ ((0 ≤ i < n)%Z → (n ≤ Int.max_int)%Z →
         i' = (i + Z.of_nat (size s) - Z.of_nat (size s'))%Z ∧ (i' ≤ n)%Z)).
  { intros m s idx i Hs. exists s, idx, i. rewrite (Hstop m s idx i Hs).
    split_and!; [done|done|done| |by left|done|intros; lia].
    intros key item. tauto. }
  induction m as [|m IH]; intros s idx i Hm H1 H2.
  - apply Hnil. apply leibniz_equiv, size_empty_iff. lia.
  - destruct (choose pick s) as [item|] eqn:Hc; [|by apply Hnil, (choose_None pick)].
    apply choose_Some in Hc as Hin.
    destruct (H1 item Hin) as (it & Hit & Hidx).
    simpl. rewrite Hc, Hit. simpl.
    assert (Hsz : size s = S (size (s ∖ {[item]}))).
    { rewrite size_difference by (by apply singleton_subseteq_l).
      rewrite size_singleton.
      assert (size s ≠ 0); [|lia].
      rewrite size_empty_iff. set_solver. }
    assert (Hszi : size idx = S (size (delete (k it) idx))).
    { rewrite map_size_delete, Hidx.
      assert (size idx ≠ 0); [|lia].
      apply map_size_ne_0_lookup. eauto. }
    assert (F1 : ∀ key p, delete (k it) idx !! key = Some p ↔
                          idx !! key = Some p ∧ p ≠ item).
    { intros key p. destruct (decide (key = k it)) as [->|Hne].
      - rewrite lookup_delete_eq. split; [done|]. intros [Hp Hne]. congruence.
      - rewrite lookup_delete_ne by done. split; [|tauto].
        intros Hp. split; [done|]. intros ->.
        destruct (H2 _ _ Hp) as (it' & Hit' & Hk'). congruence. }
    assert (Hadd : (0 ≤ i < n)%Z → (n ≤ Int.max_int)%Z →
                   Int.add i 1 = (i + 1)%Z).
    { intros ??. apply add_small.
      unfold Int.in_range, Int.min_int, Int.max_int in *. lia. }
    destruct (decide (Int.add i 1 = n)) as [Heq|Hne].
    + exists (s ∖ {[item]}), (delete (k it) idx), (Int.add i 1).
      split_and!; [done|set_solver|set_solver| |by right|lia|].
      * intros key p. rewrite F1. set_solver.
      * intros Hi Hn. rewrite Hadd by done. lia.
    + destruct (IH (s ∖ {[item]}) (delete (k it) idx) (Int.add i 1))
        as (s' & idx' & i' & Hrun & Hsub & _ & Hchar & Hexit & Hsize & Hcount).
      * lia.
      * intros item' [Hi' Hne']%elem_of_difference.
        rewrite elem_of_singleton in Hne'.
        destruct (H1 _ Hi') as (it' & Hit' & Hidx').
        exists it'. split; [done|]. by apply F1.
      * intros key p [Hp _]%F1. by apply H2.
      * exists s', idx', i'. rewrite Hrun.
        split_and!; [done|set_solver|set_solver| |done|lia|].
        -- intros key p. rewrite Hchar, F1. set_solver.
        -- intros Hi Hn. rewrite Hadd in Hcount, Hne by done.
           destruct Hcount as [-> Hle]; [lia|lia|]. lia.
Qed.
End Range.

Section EvictLoop.
Context {V : Type}.
Implicit Types (c : cache V) (it : kvItem V).

Lemma members_cons c e l :
  freqList c = e :: l →
  members c = size (items (Value e))
              + foldr (λ e acc, size (items (Value e)) + acc) 0 l.
Proof. unfold members. by intros ->. Qed.

Lemma evictLoop_round fuel pick n i c front rest s' idx' i' :
  i ≠ n → freqList c = front :: rest →
  rangeItems (size (items (Value front))) pick n (heap c)
    (items (Value front)) (kv c) i = Some (s', idx', i') →
  evictLoop (S fuel) pick n i c
  = evictLoop fuel pick n i' (trimmed c front rest s' idx').
Proof.
  intros Hi Hl Hr. simpl. rewrite Hl.
  rewrite decide_False by (intros [?|?]; [done|discriminate]).
  simpl. rewrite Hr. simpl.
  rewrite (decide_True (P := self front = self front)) by done.
  unfold trimmed. destruct (decide (size s' = 0)); simpl; [|done].
  by rewrite (decide_True (P := self front = self front)).
Qed.

Lemma wf_trimmed c front rest s' idx' :
  wf c → freqList c = front :: rest →
  s' ⊆ items (Value front) →
  (∀ key item, idx' !! key = Some item ↔
     kv c !! key = Some item ∧ (item ∈ items (Value front) → item ∈ s')) →
  wf (trimmed c front rest s' idx').
Proof.
  intros Hwf Hl Hsub Hchar.
  assert (Hfront : front ∈ freqList c) by (rewrite Hl; apply elem_of_cons; by left).
  assert (Hrest : ∀ e, e ∈ rest → e ∈ freqList c).
  { intros e He. rewrite Hl. apply elem_of_cons. by right. }
  pose proof (wf_nodup _ Hwf) as Hnd. rewrite Hl, fmap_cons in Hnd.
  apply NoDup_cons in Hnd as [Hnin Hnd].
  assert (Hdisj : ∀ e item, e ∈ rest → item ∈ items (Value e) →
                    item ∉ items (Value front)).
  { intros e item He Hi Hi'.
    assert (e = front) as -> by (by apply (wf_bucket_unique c e front item); auto).
    by apply Hnin, elem_of_self. }
  assert (Hmem : ∀ e, e ∈ freqList (trimmed c front rest s' idx') →
    (e = MkElement (self front) (FreqNode (freq (Value front)) s') ∧ s' ≠ ∅)
    ∨ e ∈ rest).
  { intros e. unfold trimmed. simpl. destruct (decide (size s' = 0)) as [Hz|Hz]; [auto|].
    intros [->|He]%elem_of_cons; [left|by right]. split; [done|].
    intros ->. by rewrite size_empty in Hz. }
  split.
  - unfold trimmed. simpl. destruct (decide (size s' = 0)); [done|].
    rewrite fmap_cons. by apply NoDup_cons.
  - intros e [[-> Hne]|He]%Hmem; [done|]. by apply (wf_nonempty _ Hwf), Hrest.
  - intros key item Hk. simpl in Hk. apply Hchar in Hk as [Hk Himp].
    destruct (wf_kv _ Hwf _ _ Hk) as (it & e & Hit & Hk' & He & Hi).
    rewrite Hl in He. apply elem_of_cons in He as [->|He].
    + exists it, (MkElement (self front) (FreqNode (freq (Value front)) s')).
      split_and!; [done|done| |by apply Himp].
      unfold trimmed. simpl. rewrite decide_False; [apply elem_of_cons; by left|].
      rewrite size_empty_iff. specialize (Himp Hi). set_solver.
    + exists it, e. split_and!; [done|done| |done].
      unfold trimmed. simpl. destruct (decide _); [done|].
      apply elem_of_cons. by right.
  - intros e item [[-> Hne]|He]%Hmem Hi; simpl in *.
    + destruct (wf_items _ Hwf front item Hfront (Hsub _ Hi)) as (it & Hit & Hp & Hk).
      exists it. split_and!; [done|done|]. apply Hchar. by split.
    + destruct (wf_items _ Hwf e item (Hrest _ He) Hi) as (it & Hit & Hp & Hk).
      exists it. split_and!; [done|done|]. apply Hchar. split; [done|].
      intros Hi'. by destruct (Hdisj e item He Hi).
  - intros e [[-> Hne]|He]%Hmem; simpl.
    + by apply (wf_brk_list _ Hwf).
    + by apply (wf_brk_list _ Hwf), Hrest.
  - apply (wf_brk_heap _ Hwf).
Qed.

Lemma wf_no_buckets c : wf c → freqList c = [] → kv c = ∅.
Proof.
  intros Hwf Hl. apply map_empty. intros key.
  destruct (kv c !! key) as [item|] eqn:Hk; [|done].
  destruct (wf_kv _ Hwf _ _ Hk) as (_ & e & _ & _ & He & _).
  rewrite Hl in He. by apply elem_of_nil in He.
Qed.

Lemma evictLoop_spec pick n : ∀ fuel i c,
  wf c → members c < fuel →
  ∃ c', evictLoop fuel pick n i c = Some c'
    ∧ wf c' ∧ cap c' = cap c ∧ heap c' = heap c ∧ brk c' = brk c
    ∧ (∀ key item, kv c' !! key = Some item → kv c !! key = Some item)
    ∧ shrunk (freqList c) (freqList c')
    ∧ ((0 ≤ i ≤ n)%Z → (n ≤ Int.max_int)%Z →
       Z.of_nat (Size c') = Z.max 0 (Z.of_nat (Size c) - (n - i))).
Proof.
  induction fuel as [|fuel IH]; intros i c Hwf Hfuel; [lia|].
  destruct (decide (i = n)) as [->|Hi].
  { exists c. simpl. rewrite decide_True by auto.
    split_and!; try done; [constructor|]. intros; lia. }
  destruct (freqList c) as [|front rest] eqn:Hl.
  { exists c. simpl. rewrite Hl. rewrite decide_True by auto.
    split_and!; try done; [constructor|].
    intros. unfold Size. rewrite (wf_no_buckets c Hwf Hl), map_size_empty. lia. }
  assert (Hfront : front ∈ freqList c) by (rewrite Hl; apply elem_of_cons; by left).
  destruct (rangeItems_spec pick n (heap c) (size (items (Value front)))
              (items (Value front)) (kv c) i)
    as (s' & idx' & i' & Hrun & Hsub & Hless & Hchar & Hexit & Hsize & Hcount).
  { done. }
  { intros item Hin.
    destruct (wf_items _ Hwf _ _ Hfront Hin) as (it & Hit & _ & Hk). eauto. }
  { intros key item Hk.
    destruct (wf_kv _ Hwf _ _ Hk) as (it & _ & Hit & Hk' & _). eauto. }
  rewrite (evictLoop_round fuel pick n i c front rest s' idx' i' Hi Hl Hrun).
  pose proof (wf_trimmed c front rest s' idx' Hwf Hl Hsub Hchar) as Hwf2.
  assert (Hlt : size s' < size (items (Value front))).
  { apply subset_size. split; [done|]. intros Hsup.
    apply Hless; [by apply (wf_nonempty _ Hwf)|]. set_solver. }
  destruct (IH i' (trimmed c front rest s' idx') Hwf2)
    as (c' & Hrun' & Hwf' & Hcap & Hheap & Hbrk & Hkv & Hshr & Hsz).
  { rewrite (members_cons c front rest Hl) in Hfuel.
    unfold members, trimmed. simpl. destruct (decide (size s' = 0)); simpl; lia. }
  exists c'. split_and!; try done.
  - intros key item Hk%Hkv. simpl in Hk. by apply Hchar in Hk as [? _].
  - revert Hshr. unfold trimmed. simpl.
    destruct (decide (size s' = 0)); intros Hshr.
    + by apply shrunk_drop.
    + by apply shrunk_trim with (s' := s').
  - intros Hin Hn. destruct Hcount as [Hi' Hle]; [lia|done|].
    rewrite Hsz by (done || lia). unfold Size, trimmed. simpl. lia.
Qed.

Lemma Evict_spec pick n c :
  wf c →
  ∃ c', Evict pick n c = Some c'
    ∧ wf c' ∧ cap c' = cap c ∧ heap c' = heap c ∧ brk c' = brk c
    ∧ (∀ key item, kv c' !! key = Some item → kv c !! key = Some item)
    ∧ shrunk (freqList c) (freqList c')
    ∧ ((0 < n ≤ Int.max_int)%Z →
       Z.of_nat (Size c') = Z.max 0 (Z.of_nat (Size c) - n)).
Proof.
  intros Hwf. unfold Evict. destruct (decide (n ≤ 0)%Z) as [Hn|Hn].
  - exists c. split_and!; try done; [constructor|]. intros; lia.
  - destruct (evictLoop_spec pick n (evictFuel c) 0 c Hwf)
      as (c' & Hrun & Hwf' & Hcap & Hheap & Hbrk & Hkv & Hshr & Hsz).
    { unfold evictFuel, members. lia. }
    exists c'. split_and!; try done.
    intros [_ Hmax]. rewrite Hsz by (done || lia). lia.
Qed.
End EvictLoop.

(** ** Every call keeps the invariants *)

Lemma shrunk_freqs l l' :
  shrunk l l' → ∃ gone, (freq ∘ Value) <$> l = gone ++ ((freq ∘ Value) <$> l').
Proof.
  induction 1 as [l|e l l' _ [gone IH]|e s' l l' _ _ [gone IH]].
  - by exists [].
  - exists (freq (Value e) :: gone). rewrite fmap_cons, IH. done.
  - exists gone. rewrite fmap_cons in *. simpl in *. done.
Qed.

Section Preservation.
Context {V : Type}.
Implicit Types (c : cache V) (it : kvItem V).

Lemma ordered_shrunk c c' B :
  shrunk (freqList c) (freqList c') → ordered c → bounded B c →
  ordered c' ∧ bounded B c'.
Proof.
  intros [gone Hg]%shrunk_freqs [Hs Hge] Hle.
  unfold ordered, bounded, freqs in *. rewrite Hg in *.
  apply StronglySorted_app_1_r in Hs.
  apply Forall_app in Hge as [_ Hge]. by apply Forall_app in Hle as [_ Hle].
Qed.

Lemma bounded_mono c B B' : (B ≤ B')%Z → bounded B c → bounded B' c.
Proof.
  intros HB Hb. unfold bounded in *.
  eapply Forall_impl; [exact Hb|]. simpl. intros; lia.
Qed.

Lemma keeps_order_shrunk c c' :
  shrunk (freqList c) (freqList c') → keeps_order c c'.
Proof.
  intros Hshr B Ho Hb HB.
  destruct (ordered_shrunk c c' B Hshr Ho Hb) as [Ho' Hb'].
  split; [done|]. apply (bounded_mono c' B); [lia|done].
Qed.

Lemma keeps_order_refl c : keeps_order c c.
Proof. apply keeps_order_shrunk. constructor. Qed.

Lemma Set_locked_inv key val c :
  wf c →
  ∃ c', Set_locked key val c = Some c' ∧ wf c' ∧ cap c' = cap c
        ∧ keeps_order c c'.
Proof.
  intros Hwf. destruct (kv c !! key) as [item|] eqn:Hkv.
  - destruct (Set_locked_live c key val item Hwf Hkv)
      as (it & e & pre & post & b & _ & _ & _ & Hl & _ & _ & _ & Hrun & Hwf').
    eexists. split_and!; [exact Hrun|done|done|].
    intros B Hord Hb HB. apply (ordered_moved c); try done. lia.
  - exists (placed c key val). split_and!.
    + by apply Set_locked_new.
    + by apply wf_placed.
    + unfold placed. destruct (freqList c); [done|]. by destruct (bool_decide _).
    + intros B Hord Hb HB. apply ordered_placed; try done. lia.
Qed.

Lemma Set_inv pick key val c :
  wf c →
  ∃ c', Set_ pick key val c = Some c' ∧ wf c' ∧ cap c' = cap c
        ∧ keeps_order c c'.
Proof.
  intros Hwf. unfold Set_.
  assert (∃ c1, (if Set_full c then Evict pick 1 c else Some c) = Some c1
                ∧ wf c1 ∧ cap c1 = cap c
                ∧ shrunk (freqList c) (freqList c1))
    as (c1 & -> & Hwf1 & Hcap1 & Hshr).
  { destruct (Set_full c).
    - destruct (Evict_spec pick 1 c Hwf) as (c1 & ? & ? & ? & _ & _ & _ & ? & _).
      by exists c1.
    - exists c. split_and!; try done. constructor. }
  simpl.
  destruct (Set_locked_inv key val c1 Hwf1) as (c' & Hrun & Hwf' & Hcap & Hord).
  exists c'. split_and!; [done|done|congruence|].
  intros B Ho Hb HB.
  destruct (ordered_shrunk c c1 B Hshr Ho Hb) as [Ho1 Hb1].
  by apply Hord.
Qed.

Lemma Get_inv key c :
  wf c →
  ∃ r c', Get key c = Some (r, c') ∧ wf c' ∧ cap c' = cap c
          ∧ keeps_order c c'.
Proof.
  intros Hwf. destruct (kv c !! key) as [item|] eqn:Hkv.
  - destruct (Get_live c key item Hwf Hkv)
      as (it & e & pre & post & b & _ & _ & _ & Hl & _ & _ & _ & Hrun & Hwf').
    eexists _, _. split_and!; [exact Hrun|done|done|].
    intros B Hord Hb HB. apply (ordered_moved c); try done. lia.
  - exists None, c. split_and!; [by apply Get_absent|done|done|].
    apply keeps_order_refl.
Qed.

Lemma exec_inv o c :
  wf c →
  ∃ c', exec o c = Some c' ∧ wf c' ∧ cap c' = cap c ∧ keeps_order c c'.
Proof.
  intros Hwf. destruct o as [pick key val|key|pick n]; simpl.
  - by apply Set_inv.
  - destruct (Get_inv key c Hwf) as (r & c' & -> & ?). by exists c'.
  - destruct (Evict_spec pick n c Hwf) as (c' & ? & ? & ? & _ & _ & _ & ? & _).
    exists c'. split_and!; try done. by apply keeps_order_shrunk.
Qed.

Lemma run_inv os : ∀ c,
  wf c →
  ∃ c', run os c = Some c' ∧ wf c' ∧ cap c' = cap c
        ∧ ∀ B, ordered c → bounded B c →
               (0 ≤ B)%Z → (B + Z.of_nat (length os) ≤ Int.max_int)%Z →
               ordered c' ∧ bounded (B + Z.of_nat (length os)) c'.
Proof.
  induction os as [|o os IH]; intros c Hwf.
  - exists c. split_and!; try done. intros B Ho Hb _ _. split; [done|].
    apply (bounded_mono c B); [simpl; lia|done].
  - destruct (exec_inv o c Hwf) as (c1 & Hex & Hwf1 & Hcap1 & Hord1).
    destruct (IH c1 Hwf1) as (c' & Hrun & Hwf' & Hcap & Hord).
    exists c'. simpl. rewrite Hex. simpl.
    split_and!; [done|done|congruence|].
    intros B Ho Hb HB Hlen. simpl length in Hlen.
    destruct (Hord1 B Ho Hb) as [Ho1 Hb1]; [lia|].
    destruct (Hord (B + 1)%Z Ho1 Hb1) as [Ho' Hb']; [lia|lia|].
    split; [done|]. apply (bounded_mono c' (B + 1 + Z.of_nat (length os))); [|done].
    simpl length. lia.
Qed.

Lemma ordered_New cap0 : ordered (New (V:=V) cap0) ∧ bounded 0 (New (V:=V) cap0).
Proof. unfold ordered, bounded, freqs. simpl. repeat constructor. Qed.

(** Every reachable state satisfies the representation invariant. *)
Lemma reachable_wf cap0 c : reachable cap0 c → wf c ∧ cap c = cap0.
Proof.
  intros [os Hrun].
  destruct (run_inv os (New cap0) (wf_New cap0)) as (c' & Hrun' & Hwf & Hcap & _).
  assert (c' = c) as -> by congruence. done.
Qed.
(** Every state reached by fewer calls than a frequency counter can count
    is ordered. *)
Lemma reachable_ordered cap0 (os : list call) c :
  run os (New cap0) = Some c → (Z.of_nat (length os) ≤ Int.max_int)%Z →
  ordered c.
Proof.
  intros Hrun Hlen.
  destruct (run_inv os (New cap0) (wf_New cap0)) as (c' & Hrun' & _ & _ & Hord).
  assert (c' = c) as -> by congruence.
  destruct (ordered_New cap0) as [Ho Hb].
  destruct (Hord 0%Z Ho Hb) as [Ho' _]; [lia|lia|done].
Qed.
End Preservation.

(** ** Counting: the buckets hold as many members as the index has keys *)

Lemma elem_of_allItems l item :
  item ∈ allItems l ↔ ∃ e, e ∈ l ∧ item ∈ items (Value e).
Proof.
  unfold allItems. rewrite elem_of_union_list. split.
  - intros (s & (e & -> & He)%list_elem_of_fmap & Hi). by exists e.
  - intros (e & He & Hi). exists (items (Value e)). split; [|done].
    apply list_elem_of_fmap. by exists e.
Qed.

Lemma size_allItems l :
  NoDup (self <$> l) →
  (∀ e1 e2 item, e1 ∈ l → e2 ∈ l → item ∈ items (Value e1) →
                 item ∈ items (Value e2) → self e1 = self e2) →
  size (allItems l) = foldr (λ e acc, size (items (Value e)) + acc) 0 l.
Proof.
  induction l as [|e l IH]; intros Hnd Hu.
  - unfold allItems. simpl. exact (size_empty (C := gset ptr)).
  - rewrite fmap_cons in Hnd. apply NoDup_cons in Hnd as [Hn Hnd].
    change (allItems (e :: l)) with (items (Value e) ∪ allItems l).
    rewrite size_union.
    + simpl. rewrite IH; [done|done|].
      intros e1 e2 item H1 H2. apply Hu; apply elem_of_cons; by right.
    + intros item Hi (e' & He' & Hi')%elem_of_allItems. apply Hn.
      rewrite (Hu e e' item); [by apply elem_of_self| | |done|done].
      * apply elem_of_cons. by left.
      * apply elem_of_cons. by right.
Qed.

Section Count.
Context {V : Type}.
Implicit Types (c : cache V).

Lemma wf_count c : wf c → members c = size (kv c).
Proof.
  intros Hwf. unfold members.
  rewrite <- size_allItems.
  - rewrite <- length_map_to_list.
    rewrite <- (length_fmap snd (map_to_list (kv c))).
    unfold size, set_size. simpl. apply Permutation_length.
    apply NoDup_Permutation.
    + apply NoDup_elements.
    + apply NoDup_fmap_2_strong; [|apply NoDup_map_to_list].
      intros [k1 p1] [k2 p2] H1%elem_of_map_to_list H2%elem_of_map_to_list.
      simpl. intros <-. f_equal. by apply (wf_kv_inj c k1 k2 p1).
    + intros p. rewrite elem_of_elements, elem_of_allItems. split.
      * intros (e & He & Hi).
        destruct (wf_items _ Hwf _ _ He Hi) as (it & _ & _ & Hk).
        apply list_elem_of_fmap. exists (k it, p). split; [done|].
        by apply elem_of_map_to_list.
      * intros ([key p'] & -> & Hk%elem_of_map_to_list)%list_elem_of_fmap.
        destruct (wf_kv _ Hwf _ _ Hk) as (_ & e & _ & _ & He & Hi). eauto.
  - by apply wf_nodup.
  - intros e1 e2 item H1 H2 Hi1 Hi2.
    by rewrite (wf_bucket_unique c e1 e2 item).
Qed.
End Count.

(** ** Further facts used by the properties below *)

Lemma find_NoDup l e :
  NoDup (self <$> l) → e ∈ l → List.find (self e) l = Some e.
Proof.
  intros Hnd (pre & post & ->)%list_elem_of_split.
  apply find_split. by apply (NoDup_split pre post e).
Qed.

Lemma StronglySorted_lt_NoDup (l : list Z) : StronglySorted Z.lt l → NoDup l.
Proof.
  induction 1 as [|x l _ IH Hx]; constructor; [|done].
  intros Hin. rewrite Forall_forall in Hx. specialize (Hx _ Hin). lia.
Qed.

Lemma shrunk_selfs l l' x : shrunk l l' → x ∈ self <$> l' → x ∈ self <$> l.
Proof.
  induction 1 as [l|e l l' _ IH|e s' l l' _ _ IH]; intros Hx.
  - done.
  - rewrite fmap_cons. apply elem_of_cons. right. by apply IH.
  - by apply IH in Hx.
Qed.

(** If a bucket survives an eviction, possibly in part, every bucket behind
    it in the list survives untouched. *)
Lemma shrunk_after l l' : shrunk l l' →
  ∀ P e2 Q a, NoDup (self <$> l) → l = P ++ e2 :: Q →
    a ∈ self <$> P → a ∈ self <$> l' → e2 ∈ l'.
Proof.
  induction 1 as [l|e l l' Hshr IH|e s' l l' Hsub Hshr IH];
    intros P e2 Q a Hnd Hl HaP Ha.
  - rewrite Hl. apply elem_of_app. right. apply elem_of_cons. by left.
  - destruct P as [|e0 P']; [by apply elem_of_nil in HaP|].
    simpl in Hl. injection Hl as <- Hl.
    rewrite fmap_cons in Hnd, HaP. apply NoDup_cons in Hnd as [Hn Hnd].
    apply elem_of_cons in HaP as [->|HaP].
    + destruct Hn. by apply (shrunk_selfs l l').
    + by apply (IH P' e2 Q a).
  - destruct P as [|e0 P']; [by apply elem_of_nil in HaP|].
    simpl in Hl. injection Hl as <- Hl.
    apply (IH (MkElement (self e) (FreqNode (freq (Value e)) s') :: P') e2 Q a).
    + by rewrite fmap_cons in *.
    + simpl. by rewrite Hl.
    + by rewrite fmap_cons in *.
    + done.
Qed.

Section Observations.
Context {V : Type}.
Implicit Types (c : cache V) (it : kvItem V).

(** The frequency of a live key is the frequency of the bucket holding its
    item. *)
Lemma freqOf_Some c key f :
  wf c → freqOf key c = Some f →
  ∃ item it e, kv c !! key = Some item ∧ heap c !! item = Some it
    ∧ parent it = Some (self e) ∧ e ∈ freqList c
    ∧ item ∈ items (Value e) ∧ freq (Value e) = f.
Proof.
  intros Hwf. unfold freqOf.
  destruct (kv c !! key) as [item|] eqn:Hk; [simpl|done].
  destruct (wf_lookup c key item Hwf Hk)
    as (it & e & pre & post & Hit & _ & Hpar & Hl & Hin).
  rewrite Hit. simpl. rewrite Hpar. simpl.
  assert (He : e ∈ freqList c).
  { rewrite Hl. apply elem_of_app. right. apply elem_of_cons. by left. }
  rewrite (find_NoDup _ _ (wf_nodup _ Hwf) He). simpl. intros [= <-].
  by exists item, it, e.
Qed.

Lemma freqOf_live c key item :
  wf c → kv c !! key = Some item → ∃ f, freqOf key c = Some f.
Proof.
  intros Hwf Hk. unfold freqOf. rewrite Hk. simpl.
  destruct (wf_lookup c key item Hwf Hk)
    as (it & e & pre & post & Hit & _ & Hpar & Hl & Hin).
  rewrite Hit. simpl. rewrite Hpar. simpl.
  assert (He : e ∈ freqList c).
  { rewrite Hl. apply elem_of_app. right. apply elem_of_cons. by left. }
  rewrite (find_NoDup _ _ (wf_nodup _ Hwf) He). simpl. eauto.
Qed.

Lemma wf_empty_size c : wf c → Size c = 0 → kv c = ∅ ∧ freqList c = [].
Proof.
  intros Hwf Hz. unfold Size in Hz.
  pose proof (wf_count c Hwf) as Hc. rewrite Hz in Hc.
  split; [by apply map_size_empty_iff|].
  destruct (freqList c) as [|e l] eqn:Hl; [done|].
  rewrite (members_cons c e l Hl) in Hc.
  assert (size (items (Value e)) ≠ 0); [|lia].
  rewrite size_empty_iff. intros Hemp%leibniz_equiv.
  apply (wf_nonempty _ Hwf e); [|done]. rewrite Hl. apply elem_of_cons. by left.
Qed.
End Observations.

(** ** The sample states are reachable *)

Lemma demo3_reachable : reachable 0 demo3.
Proof.
  exists [CSet first "a" 1%Z; CSet first "b" 2%Z; CSet first "c" 3%Z].
  vm_compute. reflexivity.
Qed.

Lemma demo2_reachable : reachable 2 demo2.
Proof.
  exists [CSet first "a" 1%Z; CSet first "b" 2%Z; CGet "a"].
  vm_compute. reflexivity.
Qed.

Lemma demo3_wf : wf demo3.
Proof. apply (reachable_wf 0), demo3_reachable. Qed.

Lemma demo2_wf : wf demo2.
Proof. apply (reachable_wf 2), demo2_reachable. Qed.

Lemma demo3_Size : Size demo3 = 3.
Proof. vm_compute. reflexivity. Qed.

Lemma demo2_Size : Size demo2 = 2.
Proof. vm_compute. reflexivity. Qed.

(** ** [Set] with and without room *)

Section Sets.
Context {V : Type}.
Implicit Types (c : cache V) (l : list (oracle * string * V)).

Lemma placed_kv c key val :
  cap (placed c key val) = cap c
  ∧ ∃ p, kv (placed c key val) = <[key := p]> (kv c).
Proof.
  unfold placed. destruct (freqList c); [by eauto|].
  destruct (bool_decide _); by eauto.
Qed.

Lemma Set_full_false c :
  (cap c ≤ 0 ∨ Z.of_nat (Size c) < cap c)%Z → Set_full c = false.
Proof.
  unfold Set_full, Size. intros [Hc|Hc].
  - by rewrite bool_decide_eq_false_2 by lia.
  - rewrite (bool_decide_eq_false_2 (cap c ≤ _)%Z) by lia. apply andb_false_r.
Qed.

Lemma Set_new_room pick key val c :
  wf c → (cap c ≤ 0 ∨ Z.of_nat (Size c) < cap c)%Z → kv c !! key = None →
  ∃ c' p, Set_ pick key val c = Some c' ∧ wf c' ∧ cap c' = cap c
          ∧ kv c' = <[key := p]> (kv c) ∧ Size c' = S (Size c).
Proof.
  intros Hwf Hroom Hk. unfold Set_. rewrite (Set_full_false c Hroom). simpl.
  rewrite (Set_locked_new c key val Hk).
  destruct (placed_kv c key val) as (Hcap & p & Hkv).
  exists (placed c key val), p. split_and!; [done|by apply wf_placed|done..|].
  unfold Size. rewrite Hkv. by apply map_size_insert_None.
Qed.

Lemma run_sets_new l : ∀ c,
  wf c → (cap c ≤ 0 ∨ Z.of_nat (Size c + length l) ≤ cap c)%Z →
  NoDup (keys l) → (∀ key, key ∈ keys l → kv c !! key = None) →
  ∃ c', run (sets l) c = Some c' ∧ wf c' ∧ cap c' = cap c
        ∧ Size c' = Size c + length l
        ∧ dom (kv c') = list_to_set (keys l) ∪ dom (kv c).
Proof.
  induction l as [|[[pick key] val] l IH]; intros c Hwf Hroom Hnd Hnew.
  - exists c. simpl. split_and!; [done|done|done|lia|set_solver].
  - simpl in Hnd. apply NoDup_cons in Hnd as [Hnin Hnd].
    destruct (Set_new_room pick key val c Hwf) as (c1 & p & Hset & Hwf1 & Hcap1 & Hkv1 & Hsz1).
    { simpl in Hroom. lia. }
    { apply Hnew. simpl. apply elem_of_cons. by left. }
    destruct (IH c1 Hwf1) as (c' & Hrun & Hwf' & Hcap & Hsz & Hdom).
    { rewrite Hcap1, Hsz1. simpl in Hroom. lia. }
    { done. }
    { intros key' Hin. rewrite Hkv1. rewrite lookup_insert_ne by (by intros ->).
      apply Hnew. simpl. apply elem_of_cons. by right. }
    exists c'. simpl. rewrite Hset. simpl.
    split_and!; [done|done|congruence|simpl; lia|].
    rewrite Hdom, Hkv1, dom_insert_L. set_solver.
Qed.
End Sets.

(** Below capacity a [Set] of a live key is the
    locked body alone, which replaces the value and moves the item up by
    one, and the index keeps its keys. *)
Lemma Set_live_room {V : Type} (c : cache V) pick key val item :
  wf c → (cap c ≤ 0 ∨ Z.of_nat (Size c) < cap c)%Z → kv c !! key = Some item →
  ∃ c', Set_ pick key val c = Some c'
        ∧ Set_locked key val c = Some c'
        ∧ kv c' = kv c ∧ valueOf key c' = Some val.
Proof.
  intros Hwf Hroom Hkv. unfold Set_. rewrite (Set_full_false c Hroom). simpl.
  destruct (Set_locked_live c key val item Hwf Hkv)
    as (it & e & pre & post & b & Hit & _ & _ & _ & _ & _ & _ & Hrun & _).
  eexists. split_and!; [exact Hrun|exact Hrun|done|].
  unfold valueOf, moved. simpl. rewrite Hkv. simpl. by rewrite lookup_insert_eq.
Qed.

(** Called one after the other, the operations never let a bounded cache
    grow beyond its capacity. *)
Lemma exec_within_capacity {V : Type} (o : call) (c : cache V) :
  wf c → (0 < cap c)%Z → (Z.of_nat (Size c) ≤ cap c)%Z →
  ∃ c', exec o c = Some c' ∧ wf c' ∧ cap c' = cap c
        ∧ (Z.of_nat (Size c') ≤ cap c')%Z.
Proof.
  intros Hwf Hcap Hsz. destruct o as [pick key val|key|pick n]; simpl.
  - assert (∃ c1, (if Set_full c then Evict pick 1 c else Some c) = Some c1
                  ∧ wf c1 ∧ cap c1 = cap c ∧ (Z.of_nat (Size c1) < cap c)%Z)
      as (c1 & Hc1 & Hwf1 & Hcap1 & Hsz1).
    { destruct (Set_full c) eqn:Hf.
      - destruct (Evict_spec pick 1 c Hwf) as (c1 & ? & ? & ? & _ & _ & _ & _ & Hs).
        specialize (Hs ltac:(unfold Int.max_int; lia)).
        exists c1. split_and!; try done.
        unfold Set_full in Hf. apply andb_true_iff in Hf as [_ Hf].
        apply bool_decide_eq_true in Hf. unfold Size in *. lia.
      - exists c. split_and!; try done. unfold Set_full in Hf.
        rewrite bool_decide_eq_true_2 in Hf by done. simpl in Hf.
        apply bool_decide_eq_false in Hf. unfold Size. lia. }
    unfold Set_. rewrite Hc1. simpl.
    destruct (kv c1 !! key) as [item|] eqn:Hk.
    + destruct (Set_locked_live c1 key val item Hwf1 Hk)
        as (it & e & pre & post & b & _ & _ & _ & _ & _ & _ & _ & Hrun & Hwf').
      eexists. split_and!; [exact Hrun|done|done|]. unfold Size, moved in *. simpl. lia.
    + rewrite (Set_locked_new c1 key val Hk).
      destruct (placed_kv c1 key val) as (Hcap' & p & Hkv').
      exists (placed c1 key val). split_and!; [done|by apply wf_placed|congruence|].
      unfold Size in *. rewrite Hkv', map_size_insert_None by done. lia.
  - destruct (kv c !! key) as [item|] eqn:Hk.
    + destruct (Get_live c key item Hwf Hk)
        as (it & e & pre & post & b & _ & _ & _ & _ & _ & _ & _ & Hrun & Hwf').
      rewrite Hrun. simpl. eexists. split_and!; [done|done|done|].
      unfold Size, moved in *. simpl. lia.
    + rewrite (Get_absent c key Hk). simpl. by exists c.
  - destruct (Evict_spec pick n c Hwf) as (c' & Hrun & Hwf' & Hcap' & _ & _ & Hsub & _).
    exists c'. split_and!; [done|done|done|].
    assert (size (kv c') ≤ size (kv c)); [|unfold Size in *; lia].
    apply map_subseteq_size, map_subseteq_spec. intros x px. apply Hsub.
Qed.

Lemma run_within_capacity {V : Type} (os : list call) (cap0 : Z) (c : cache V) :
  (0 < cap0)%Z → run os (New cap0) = Some c → (Z.of_nat (Size c) ≤ cap0)%Z.
Proof.
  intros Hcap.
  assert (Hgen : ∀ c0 : cache V,
    wf c0 → cap c0 = cap0 → (Z.of_nat (Size c0) ≤ cap0)%Z →
    run os c0 = Some c → (Z.of_nat (Size c) ≤ cap0)%Z).
  { induction os as [|o os IH]; intros c0 Hwf Hc Hsz Hrun.
    - simpl in Hrun. by injection Hrun as <-.
    - destruct (exec_within_capacity o c0 Hwf) as (c1 & Hex & Hwf1 & Hc1 & Hsz1).
      { lia. } { lia. }
      simpl in Hrun. rewrite Hex in Hrun. simpl in Hrun.
      apply (IH c1); try done; [congruence|]. rewrite <- Hc, <- Hc1. done. }
  apply Hgen; [apply wf_New|done|].
  unfold Size. simpl. rewrite map_size_empty. lia.
Qed.

(** ** A caller running alone *)

Section Interleaving.
Context {V : Type}.
Implicit Types (c : cache V) (t : thread V).

(** Without interference the three steps make up [Set]. *)
Lemma alone_Set pick key val c :
  alone 4 (Thread pick key val PcCheck) c = Set_ pick key val c.
Proof.
  unfold Set_. simpl. unfold thread_step, at_pc. simpl.
  destruct (Set_full c); simpl.
  - destruct (Evict pick 1 c) as [c1|]; simpl; [|done].
    destruct (Set_locked key val c1); done.
  - destruct (Set_locked key val c); done.
Qed.
End Interleaving.

Lemma demo2_ordered : ordered demo2.
Proof.
  apply (reachable_ordered 2 [CSet first "a" 1%Z; CSet first "b" 2%Z; CGet "a"]).
  - vm_compute. reflexivity.
  - unfold Int.max_int. simpl. lia.
Qed.

Lemma demo2_kv : kv demo2 = <["a" := 1]> (<["b" := 2]> ∅).
Proof. vm_compute. reflexivity. Qed.

(** * The properties

    The properties that speak of "every cache state" are stated for the
    states satisfying the representation invariant [wf] and, where the order
    of the buckets matters, [ordered].  These are no restriction on the
    states the program can be in: [reachable_wf] shows that every state
    reached from [New] by calls of [Set], [Get] and [Evict] is well linked,
    and [reachable_ordered] that it is ordered when it takes at most
    [Int.max_int] calls to reach.  Arguments of type [int] are integers up
    to [Int.max_int]. *)

Section Properties.
Context {V : Type}.
Implicit Types (c : cache V) (it : kvItem V).

(** C8. For every state and every key absent from the index, [Get] reports
    "not found" and returns the state as it was: the index, the buckets and
    so [Size] are unchanged. *)
Theorem C8_get_absent c key :
  kv c !! key = None → Get key c = Some (None, c).
Proof. apply Get_absent. Qed.

(** C9. [Evict n] with [n ≤ 0] leaves every state as it is; on a
    well-linked state, [Evict n] with [n] above the current size (and [n] an
    [int]) returns without fault and leaves the cache empty. *)
Theorem C9_evict_edge_cases pick n c :
  ((n ≤ 0)%Z → Evict pick n c = Some c)
  ∧ (wf c → (Z.of_nat (Size c) < n ≤ Int.max_int)%Z →
     ∃ c', Evict pick n c = Some c'
           ∧ Size c' = 0 ∧ kv c' = ∅ ∧ freqList c' = []).
Proof.
  split.
  - intros Hn. unfold Evict. by rewrite decide_True.
  - intros Hwf Hn.
    destruct (Evict_spec pick n c Hwf) as (c' & Hrun & Hwf' & _ & _ & _ & _ & _ & Hsz).
    assert (Hz : Size c' = 0) by (specialize (Hsz ltac:(lia)); lia).
    exists c'. destruct (wf_empty_size c' Hwf' Hz). done.
Qed.

(** C10. On a well-linked state, [Evict n] with [n > 0] removes exactly
    [min n Size] entries: the size afterwards is [max 0 (Size - n)]. *)
Theorem C10_evict_count pick n c :
  wf c → (0 < n ≤ Int.max_int)%Z →
  ∃ c', Evict pick n c = Some c'
        ∧ Z.of_nat (Size c') = Z.max 0 (Z.of_nat (Size c) - n)
        ∧ Size c - Size c' = Nat.min (Z.to_nat n) (Size c).
Proof.
  intros Hwf Hn.
  destruct (Evict_spec pick n c Hwf) as (c' & Hrun & _ & _ & _ & _ & _ & _ & Hsz).
  exists c'. specialize (Hsz Hn). split_and!; [done|done|lia].
Qed.

(** C3. Every sequence of [Set], [Get] and [Evict] calls on a new cache
    returns, and in the state it leaves no bucket is empty and [Size] is the
    sum of the bucket member counts, which is the size of the key index.
    When the sequence has at most [max_int] calls, so that no frequency
    counter can have wrapped, the frequencies increase strictly from head
    to tail and no two buckets have the same frequency. *)
Theorem C3_bucket_invariant cap0 (os : list call) :
  ∃ c, run os (New cap0) = Some c
    ∧ (∀ e, e ∈ freqList c → items (Value e) ≠ ∅)
    ∧ Size c = members c
    ∧ members c = size (kv c)
    ∧ ((Z.of_nat (length os) ≤ Int.max_int)%Z →
       StronglySorted Z.lt (freqs c) ∧ NoDup (freqs c)).
Proof.
  destruct (run_inv os (New cap0) (wf_New cap0)) as (c & Hrun & Hwf & _ & Hord).
  exists c. split_and!; [done| | | |].
  - by apply wf_nonempty.
  - unfold Size. by rewrite wf_count.
  - by apply wf_count.
  - intros Hlen. destruct (ordered_New (V:=V) cap0) as [Ho Hb].
    destruct (Hord 0%Z Ho Hb) as [[Hs _] _]; [lia|lia|].
    split; [done|]. by apply StronglySorted_lt_NoDup.
Qed.

(** X13. Let [key] be live, its item sitting in bucket [e] of frequency [f]
    (an [int] below [max_int]) between [pre] and [post].  [increment], and so
    a [Get] of the key and the locked body of [Set] (what [Set] does after
    its capacity test and eviction), moves the item to a bucket [tgt] of
    frequency exactly [f + 1]: the bucket right behind [e]
    when that has frequency [f + 1], otherwise a new bucket holding just
    this item, placed right behind [e].  The item's [parent] becomes [tgt],
    the item leaves [e], and [e] leaves the list when nothing is left in
    it. *)
Theorem increment_moves_up_one c key item it e pre post :
  wf c → kv c !! key = Some item → heap c !! item = Some it →
  parent it = Some (self e) → freqList c = pre ++ e :: post →
  (Int.min_int ≤ freq (Value e) < Int.max_int)%Z →
  ∃ c' tgt post',
    increment item c = Some c'
    ∧ Get key c = Some (Some (v it), c')
    ∧ (∀ val, ∃ c'', Set_locked key val c = Some c''
               ∧ freqList c'' = freqList c'
               ∧ heap c'' !! item = Some (KvItem (k it) val (Some (self tgt))))
    ∧ freqList c'
      = pre ++ (if decide (items (Value e) ∖ {[item]} = ∅) then []
                else [MkElement (self e) (delItem item (Value e))])
            ++ tgt :: post'
    ∧ ((∃ nx, post = nx :: post'
              ∧ freq (Value nx) = (freq (Value e) + 1)%Z
              ∧ tgt = MkElement (self nx) (addItem item (Value nx)))
       ∨ ((∀ nx, head post = Some nx → freq (Value nx) ≠ (freq (Value e) + 1)%Z)
          ∧ post' = post
          ∧ tgt = MkElement (brk c) (FreqNode (freq (Value e) + 1) {[item]})))
    ∧ freq (Value tgt) = (freq (Value e) + 1)%Z
    ∧ item ∈ items (Value tgt)
    ∧ heap c' !! item = Some (KvItem (k it) (v it) (Some (self tgt)))
    ∧ freqOf key c' = Some (freq (Value e) + 1)%Z
    ∧ kv c' = kv c.
Proof.
  intros Hwf Hkv Hit Hpar Hl Hf.
  assert (Hadd : Int.add (freq (Value e)) 1 = (freq (Value e) + 1)%Z).
  { apply add_small. unfold Int.in_range. lia. }
  assert (He : e ∈ freqList c).
  { rewrite Hl. apply elem_of_app. right. apply elem_of_cons. by left. }
  assert (Hin : item ∈ items (Value e)).
  { destruct (wf_kv _ Hwf _ _ Hkv) as (it0 & e0 & Hit0 & _ & He0 & Hi0).
    destruct (wf_items _ Hwf _ _ He0 Hi0) as (it1 & Hit1 & Hp1 & _).
    assert (e0 = e) as ->; [|done].
    apply (NoDup_self_inj (freqList c)); [by apply wf_nodup|done|done|congruence]. }
  destruct (increment_run c item it e pre post Hit Hpar Hl (wf_nodup _ Hwf))
    as (b & Hb & HT & Hrun).
  rewrite Hadd in *.
  assert (HT' : self (target item (freq (Value e) + 1) (brk c) post).1 < b).
  { destruct HT as [HT|HT]; [done|].
    apply list_elem_of_fmap in HT as (e' & Heq & He'). rewrite Heq.
    assert (self e' < brk c); [|lia].
    apply (wf_brk_list _ Hwf). rewrite Hl. apply elem_of_app. right.
    apply elem_of_cons. by right. }
  pose proof (wf_moved c item it e pre post (freq (Value e) + 1) b
                Hwf Hit Hpar Hl Hin ltac:(lia) HT') as Hwf'.
  unfold moved in Hwf'.
  assert (Hcases :
    let tp := target item (freq (Value e) + 1) (brk c) post in
    ((∃ nx, post = nx :: tp.2
            ∧ freq (Value nx) = (freq (Value e) + 1)%Z
            ∧ tp.1 = MkElement (self nx) (addItem item (Value nx)))
     ∨ ((∀ nx, head post = Some nx → freq (Value nx) ≠ (freq (Value e) + 1)%Z)
        ∧ tp.2 = post
        ∧ tp.1 = MkElement (brk c) (FreqNode (freq (Value e) + 1) {[item]})))
    ∧ freq (Value tp.1) = (freq (Value e) + 1)%Z
    ∧ item ∈ items (Value tp.1)).
  { unfold target. destruct post as [|nx post']; simpl.
    - split_and!; [|done|by apply elem_of_singleton]. right. by split_and!.
    - destruct (bool_decide (freq (Value e) + 1 = freq (Value nx))%Z) eqn:Hm; simpl.
      + apply bool_decide_eq_true in Hm. split_and!; [|done|].
        * left. by exists nx.
        * apply elem_of_union. left. by apply elem_of_singleton.
      + apply bool_decide_eq_false in Hm.
        split_and!; [|done|by apply elem_of_singleton].
        right. split_and!; [|done|done]. intros nx' [= <-]. congruence. }
  revert Hrun Hwf' HT' Hcases.
  generalize (target item (freq (Value e) + 1) (brk c) post) as tp.
  intros [tgt post']. simpl. intros Hrun Hwf' HT' (Hcases & Hfreq & Hitem).
  eexists _, tgt, post'. rewrite <- residue_eq.
  split_and!; [exact Hrun|..]; simpl.
  - unfold Get. rewrite Hkv, Hit. simpl. by rewrite Hrun.
  - intros val. unfold Set_locked. rewrite Hkv, Hit. simpl.
    set (c2 := set_heap (<[item := KvItem (k it) val (parent it)]> (heap c)) c).
    destruct (increment_run c2 item (KvItem (k it) val (parent it)) e pre post)
      as (b2 & _ & _ & Hrun2).
    { apply lookup_insert_eq. }
    { done. }
    { done. }
    { exact (wf_nodup _ Hwf). }
    rewrite Hadd in Hrun2. simpl in Hrun2.
    destruct (target item (freq (Value e) + 1) (brk c) post) as [tgt2 post2] eqn:Htp.
    eexists. split; [exact Hrun2|]. simpl.
    assert (tgt2 = tgt ∧ post2 = post') as [-> ->].
    { clear -Hcases Htp. unfold target in Htp.
      destruct Hcases as [(nx & -> & Hfx & ->)|(Hhd & -> & ->)].
      - rewrite bool_decide_eq_true_2 in Htp by done. by injection Htp as <- <-.
      - destruct post as [|nx post2']; [by injection Htp as <- <-|].
        rewrite bool_decide_eq_false_2 in Htp; [by injection Htp as <- <-|].
        intros Heq. by apply (Hhd nx). }
    split; [done|]. apply lookup_insert_eq.
  - done.
  - done.
  - done.
  - done.
  - apply lookup_insert_eq.
  - unfold freqOf. simpl. rewrite Hkv. simpl. rewrite lookup_insert_eq. simpl.
    pose proof (find_NoDup _ tgt (wf_nodup _ Hwf')) as Hfind. simpl in Hfind.
    rewrite Hfind; [simpl; by rewrite <- Hfreq|].
    rewrite !elem_of_app, elem_of_cons. auto.
  - done.
Qed.

(** C4. On a well-linked, ordered state, [Evict] takes entries from the
    bucket of lowest frequency first: whenever a key is evicted, every key
    of strictly lower frequency is evicted too.  Hence a key whose frequency
    is strictly above that of every other live key survives [Evict 1] when
    another live key exists, and exactly one entry goes. *)
Theorem C4_evict_lowest_first pick c :
  wf c → ordered c →
  (∀ n c' k1 k2 f1 f2,
     Evict pick n c = Some c' →
     freqOf k1 c = Some f1 → freqOf k2 c = Some f2 → (f1 < f2)%Z →
     kv c' !! k2 = None → kv c' !! k1 = None)
  ∧ (∀ key f,
       freqOf key c = Some f →
       (∀ other f', other ≠ key → freqOf other c = Some f' → (f' < f)%Z) →
       (∃ other, other ≠ key ∧ is_Some (kv c !! other)) →
       ∃ c', Evict pick 1 c = Some c'
             ∧ is_Some (kv c' !! key) ∧ S (Size c') = Size c).
Proof.
  intros Hwf [Hsorted _].
  assert (Ha : ∀ n c' k1 k2 f1 f2,
     Evict pick n c = Some c' →
     freqOf k1 c = Some f1 → freqOf k2 c = Some f2 → (f1 < f2)%Z →
     kv c' !! k2 = None → kv c' !! k1 = None).
  { intros n c' k1 k2 f1 f2 Hev H1 H2 Hlt Hk2.
    destruct (Evict_spec pick n c Hwf)
      as (c'' & Hrun & Hwf' & _ & Hheap & _ & Hsub & Hshr & _).
    assert (c'' = c') as -> by congruence.
    destruct (freqOf_Some c k1 f1 Hwf H1)
      as (item1 & it1 & e1 & Hkv1 & Hit1 & Hp1 & He1 & Hi1 & Hf1).
    destruct (freqOf_Some c k2 f2 Hwf H2)
      as (item2 & it2 & e2 & Hkv2 & Hit2 & Hp2 & He2 & Hi2 & Hf2).
    destruct (kv c' !! k1) as [p|] eqn:Hk1; [exfalso|done].
    assert (p = item1) as -> by (apply Hsub in Hk1; congruence).
    destruct (wf_kv _ Hwf' _ _ Hk1) as (_ & e1' & _ & _ & He1' & Hi1').
    destruct (wf_items _ Hwf' _ _ He1' Hi1') as (it1' & Hit1' & Hp1' & _).
    rewrite Hheap in Hit1'. assert (it1' = it1) as -> by congruence.
    assert (Hself : self e1' = self e1) by congruence.
    apply list_elem_of_split in He2 as (P & Q & Hl).
    unfold freqs in Hsorted. rewrite Hl, fmap_app, fmap_cons in Hsorted.
    apply StronglySorted_app in Hsorted as (_ & _ & [HQ _]%StronglySorted_cons).
    rewrite Forall_forall in HQ.
    rewrite Hl in He1. apply elem_of_app in He1 as [He1|[->|He1]%elem_of_cons].
    - assert (He2' : e2 ∈ freqList c').
      { apply (shrunk_after _ _ Hshr P e2 Q (self e1)); [by apply wf_nodup|done| |].
        - by apply elem_of_self.
        - rewrite <- Hself. by apply elem_of_self. }
      destruct (wf_items _ Hwf' _ _ He2' Hi2) as (it2' & Hit2' & _ & Hk2').
      rewrite Hheap in Hit2'. assert (it2' = it2) as -> by congruence.
      destruct (wf_kv _ Hwf _ _ Hkv2) as (it0 & _ & Hit0 & Hk0 & _).
      assert (it0 = it2) as -> by congruence. congruence.
    - simpl in *. lia.
    - assert (freq (Value e2) < freq (Value e1))%Z; [|simpl in *; lia].
      apply HQ. apply list_elem_of_fmap. by exists e1. }
  split; [exact Ha|].
  intros key f Hfk Hmax (other & Hne & [po Hpo]).
  destruct (Evict_spec pick 1 c Hwf)
    as (c' & Hrun & Hwf' & _ & Hheap & _ & Hsub & Hshr & Hsz).
  specialize (Hsz ltac:(unfold Int.max_int; lia)).
  destruct (freqOf_Some c key f Hwf Hfk) as (item & _ & _ & Hkv & _).
  assert (Hother : delete other (kv c) !! key = Some item).
  { by rewrite lookup_delete_ne. }
  pose proof (map_size_delete other (kv c)) as Hs1. rewrite Hpo in Hs1.
  pose proof (map_size_delete key (delete other (kv c))) as Hs2.
  rewrite Hother in Hs2.
  assert (Hpos : size (delete other (kv c)) ≠ 0).
  { apply map_size_ne_0_lookup. eauto. }
  exists c'. split; [done|]. unfold Size in *.
  destruct (kv c' !! key) as [p|] eqn:Hk.
  - split; [by eexists|]. lia.
  - exfalso.
    destruct (freqOf_live c other po Hwf Hpo) as [f' Hf'].
    pose proof (Ha 1%Z c' other key f' f Hrun Hf' Hfk (Hmax _ _ Hne Hf') Hk) as Hko.
    assert (Hle : size (kv c') ≤ size (delete key (delete other (kv c)))).
    { apply map_subseteq_size, map_subseteq_spec. intros x px Hx.
      rewrite lookup_delete_ne by (intros ->; congruence).
      rewrite lookup_delete_ne by (intros ->; congruence).
      by apply Hsub. }
    lia.
Qed.

(** C6. A capacity of 0 or less never makes [Set] evict; a sequence of
    [Set]s of distinct keys on a new cache that is unbounded, or whose
    capacity the sequence does not exceed, leaves [Size] equal to the number
    of keys set; and on a well-linked cache of capacity [C > 0] holding [C]
    entries, a [Set] of a new key evicts exactly one entry and then inserts,
    leaving [Size] at [C]. *)
Theorem C6_capacity :
  (∀ c, (cap c ≤ 0)%Z → Set_full c = false)
  ∧ (∀ cap0 l,
       (cap0 ≤ 0 ∨ Z.of_nat (length l) ≤ cap0)%Z → NoDup (keys l) →
       ∃ c, run (sets l) (New cap0) = Some c
            ∧ Size c = length l ∧ dom (kv c) = list_to_set (keys l))
  ∧ (∀ c pick key val,
       wf c → (0 < cap c)%Z → Z.of_nat (Size c) = cap c → kv c !! key = None →
       ∃ c1 c' victim,
         Set_full c = true
         ∧ Evict pick 1 c = Some c1
         ∧ Set_locked key val c1 = Some c'
         ∧ Set_ pick key val c = Some c'
         ∧ is_Some (kv c !! victim)
         ∧ dom (kv c1) = dom (kv c) ∖ {[victim]}
         ∧ dom (kv c') = {[key]} ∪ dom (kv c1)
         ∧ (Z.of_nat (Size c') ≤ cap c)%Z
         ∧ Size c' = Size c).
Proof.
  split_and!.
  - intros c Hc. apply Set_full_false. by left.
  - intros cap0 l Hroom Hnd.
    destruct (run_sets_new l (New cap0) (wf_New cap0)) as (c & Hrun & _ & _ & Hsz & Hdom).
    { simpl. unfold Size. simpl. rewrite map_size_empty. simpl. lia. }
    { done. }
    { intros key _. apply lookup_empty. }
    exists c. split_and!; [done|..].
    + rewrite Hsz. unfold Size. simpl. by rewrite map_size_empty.
    + rewrite Hdom. simpl. rewrite dom_empty_L. set_solver.
  - intros c pick key val Hwf Hcap Hfull Hk.
    destruct (Evict_spec pick 1 c Hwf)
      as (c1 & Hev & Hwf1 & Hcap1 & _ & _ & Hsub & _ & Hsz).
    specialize (Hsz ltac:(unfold Int.max_int; lia)).
    assert (Hk1 : kv c1 !! key = None).
    { destruct (kv c1 !! key) as [p|] eqn:Hp; [|done]. apply Hsub in Hp. congruence. }
    assert (Hf : Set_full c = true).
    { unfold Set_full, Size in *. rewrite !bool_decide_eq_true_2 by lia. done. }
    destruct (placed_kv c1 key val) as (Hcap' & p & Hkv').
    assert (Hdsub : dom (kv c1) ⊆ dom (kv c)).
    { apply subseteq_dom, map_subseteq_spec. intros x px. apply Hsub. }
    assert (Hd1 : size (dom (kv c) ∖ dom (kv c1)) = 1).
    { rewrite size_difference by done. rewrite !size_dom. unfold Size in *. lia. }
    apply size_1_elem_of in Hd1 as [victim Hv%leibniz_equiv].
    assert (Hvin : victim ∈ dom (kv c) ∖ dom (kv c1)).
    { rewrite Hv. by apply elem_of_singleton. }
    apply elem_of_difference in Hvin as [Hvin Hvout].
    exists c1, (placed c1 key val), victim. split_and!.
    + done.
    + done.
    + by apply Set_locked_new.
    + unfold Set_. rewrite Hf, Hev. simpl. by apply Set_locked_new.
    + by apply elem_of_dom.
    + apply set_eq. intros x. rewrite elem_of_difference, elem_of_singleton. split.
      * intros Hx. split; [by apply Hdsub|]. by intros ->.
      * intros [Hx Hne]. destruct (decide (x ∈ dom (kv c1))) as [|Hout]; [done|].
        assert (Hxd : x ∈ dom (kv c) ∖ dom (kv c1)) by (by apply elem_of_difference).
        rewrite Hv in Hxd. by apply elem_of_singleton in Hxd.
    + rewrite Hkv'. apply dom_insert_L.
    + unfold Size in *. rewrite Hkv', map_size_insert_None by done. lia.
    + unfold Size in *. rewrite Hkv', map_size_insert_None by done. lia.
Qed.

End Properties.

(** ** Properties of concrete runs *)

(** C7. Capacity 2, whatever the iteration order of the maps: after
    [Set(a,1); Set(b,2)] both keys have frequency 1 and the size is 2;
    [Get(a)] returns [(1, true)] and leaves [a] at frequency 2; [Set(c,3)]
    then evicts [b], the only entry of frequency 1, and the keys are
    exactly [a] and [c], the size 2. *)
Theorem C7_capacity_two_trace (p1 p2 p3 : oracle) :
  ∃ c2 c3 c4 : cache Z,
    run [CSet p1 "a" 1%Z; CSet p2 "b" 2%Z] (New 2) = Some c2
    ∧ freqOf "a" c2 = Some 1%Z ∧ freqOf "b" c2 = Some 1%Z ∧ Size c2 = 2
    ∧ Get "a" c2 = Some (Some 1%Z, c3)
    ∧ freqOf "a" c3 = Some 2%Z ∧ freqOf "b" c3 = Some 1%Z
    ∧ Set_full c3 = true
    ∧ Set_ p3 "c" 3%Z c3 = Some c4
    ∧ kv c4 !! "b" = None
    ∧ dom (kv c4) = {["a"; "c"]}
    ∧ Size c4 = 2
    ∧ valueOf "a" c4 = Some 1%Z ∧ valueOf "c" c4 = Some 3%Z
    ∧ freqOf "a" c4 = Some 2%Z ∧ freqOf "c" c4 = Some 1%Z.
Proof.
  eexists _, _, _. split; [vm_compute; reflexivity|].
  split; [vm_compute; reflexivity|]. split; [vm_compute; reflexivity|].
  split; [vm_compute; reflexivity|]. split; [vm_compute; reflexivity|].
  split; [vm_compute; reflexivity|]. split; [vm_compute; reflexivity|].
  split; [vm_compute; reflexivity|]. split; [vm_compute; reflexivity|].
  split; [vm_compute; reflexivity|]. split; [vm_compute; reflexivity|].
  split; [vm_compute; reflexivity|]. split; [vm_compute; reflexivity|].
  split; [vm_compute; reflexivity|]. split; vm_compute; reflexivity.
Qed.

(** C1, where the code departs from it.  [Set] tests the capacity and calls
    [Evict(1)] before it looks the key up, so a [Set] of a live key on a full
    cache evicts.  With capacity 1, [Set(a,1); Set(a,2)] evicts [a] itself
    and inserts it anew: its frequency is 1, not 2, and its item is a new
    one.  With capacity 2 and [b] the least frequent key, [Set(a,5)] evicts
    [b]: the size drops from 2 to 1. *)
Theorem C1_set_live_key_when_full (p1 p2 p3 : oracle) :
  (∃ c1 c2 : cache Z,
     Set_ p1 "a" 1%Z (New 1) = Some c1
     ∧ freqOf "a" c1 = Some 1%Z ∧ Size c1 = 1
     ∧ Set_ p2 "a" 2%Z c1 = Some c2
     ∧ freqOf "a" c2 = Some 1%Z
     ∧ kv c1 !! "a" = Some 1 ∧ kv c2 !! "a" = Some 3
     ∧ fst <$> Get "a" c2 = Some (Some 2%Z))
  ∧ (∃ c : cache Z,
       is_Some (kv demo2 !! "a") ∧ Size demo2 = 2
       ∧ Set_ p3 "a" 5%Z demo2 = Some c
       ∧ Size c = 1 ∧ kv c !! "b" = None
       ∧ valueOf "a" c = Some 5%Z).
Proof.
  split.
  - eexists _, _. split; [vm_compute; reflexivity|].
    split; [vm_compute; reflexivity|]. split; [vm_compute; reflexivity|].
    split; [vm_compute; reflexivity|]. split; [vm_compute; reflexivity|].
    split; [vm_compute; reflexivity|]. split; vm_compute; reflexivity.
  - eexists. split; [vm_compute; eauto|].
    split; [vm_compute; reflexivity|]. split; [vm_compute; reflexivity|].
    split; [vm_compute; reflexivity|]. split; vm_compute; reflexivity.
Qed.

(** C2, where the code departs from it.  On a cache of capacity 1 two
    callers set the distinct new keys [a] and [b].  Under the schedule
    test, test, insert, insert both see room, both insert, and the cache ends
    with two entries; run one after the other they leave one entry, as
    [run_within_capacity] shows of every sequence of calls. *)
Theorem C2_capacity_check_outside_lock :
  let ta := Thread first "a" 1%Z PcCheck in
  let tb := Thread first "b" 2%Z PcCheck in
  (∃ ta' tb' c,
     interleave [true; false; true; false] ta tb (New 1) = Some (ta', tb', c)
     ∧ th_pc ta' = PcDone ∧ th_pc tb' = PcDone
     ∧ cap c = 1%Z ∧ Size c = 2)
  ∧ (∃ c, run [CSet first "a" 1%Z; CSet first "b" 2%Z] (New 1) = Some c
          ∧ Size c = 1)
  ∧ (∃ ta' tb' c,
       interleave [true; true; false; false; false] ta tb (New 1)
       = Some (ta', tb', c)
       ∧ th_pc ta' = PcDone ∧ th_pc tb' = PcDone ∧ Size c = 1).
Proof.
  simpl. split_and!.
  - eexists _, _, _. split; [vm_compute; reflexivity|].
    split_and!; vm_compute; reflexivity.
  - eexists. split; vm_compute; reflexivity.
  - eexists _, _, _. split; [vm_compute; reflexivity|].
    split_and!; vm_compute; reflexivity.
Qed.

(** ** Instances on the sample states *)

Lemma C8_get_absent_witness :
  kv (New (V:=Z) 2) !! "a" = None
  ∧ Get "a" (New (V:=Z) 2) = Some (None, New 2).
Proof.
  split; [reflexivity|].
  apply (C8_get_absent (New (V:=Z) 2) "a"). reflexivity.
Defined.

Lemma C9_evict_edge_cases_witness :
  Evict first 0 demo3 = Some demo3
  ∧ Evict first (-5) demo3 = Some demo3
  ∧ ∃ c', Evict first 5 demo3 = Some c'
          ∧ Size c' = 0 ∧ kv c' = ∅ ∧ freqList c' = [].
Proof.
  split_and!.
  - apply (C9_evict_edge_cases first 0 demo3). lia.
  - apply (C9_evict_edge_cases first (-5) demo3). lia.
  - apply (C9_evict_edge_cases first 5 demo3); [apply demo3_wf|].
    rewrite demo3_Size. unfold Int.max_int. lia.
Defined.

Lemma C10_evict_count_witness :
  ∃ c', Evict first 2 demo3 = Some c'
        ∧ Z.of_nat (Size c') = Z.max 0 (Z.of_nat (Size demo3) - 2)
        ∧ Size demo3 - Size c' = Nat.min (Z.to_nat 2) (Size demo3).
Proof.
  apply (C10_evict_count first 2 demo3); [apply demo3_wf|].
  unfold Int.max_int. lia.
Defined.

Lemma C3_bucket_invariant_witness :
  ∃ c, run [CSet first "a" 1%Z; CSet first "b" 2%Z; CGet "a";
            CSet first "c" 3%Z; CEvict first 1] (New 2) = Some c
    ∧ (∀ e, e ∈ freqList c → items (Value e) ≠ ∅)
    ∧ Size c = members c
    ∧ members c = size (kv c)
    ∧ StronglySorted Z.lt (freqs c) ∧ NoDup (freqs c).
Proof.
  destruct (C3_bucket_invariant 2
              [CSet first "a" 1%Z; CSet first "b" 2%Z; CGet "a";
               CSet first "c" 3%Z; CEvict first 1])
    as (c & Hrun & Hne & Hsz & Hm & Hord).
  exists c. split_and!; [done|done|done|done|..]; apply Hord.
  all: unfold Int.max_int; simpl; lia.
Defined.

Lemma C4_evict_lowest_first_witness :
  (∃ c', Evict first 2 demo2 = Some c' ∧ kv c' !! "b" = None)
  ∧ (∃ c', Evict first 1 demo2 = Some c'
           ∧ is_Some (kv c' !! "a") ∧ S (Size c') = Size demo2).
Proof.
  destruct (C4_evict_lowest_first first demo2 demo2_wf demo2_ordered) as [Ha Hb].
  split.
  - eexists. split; [vm_compute; reflexivity|].
    eapply (Ha 2%Z _ "b" "a" 1%Z 2%Z).
    + vm_compute. reflexivity.
    + vm_compute. reflexivity.
    + vm_compute. reflexivity.
    + lia.
    + vm_compute. reflexivity.
  - apply (Hb "a" 2%Z).
    + vm_compute. reflexivity.
    + intros other f' Hne Hf.
      destruct (decide (other = "b")) as [->|Hnb].
      * vm_compute in Hf. injection Hf as <-. lia.
      * unfold freqOf in Hf. rewrite demo2_kv in Hf.
        rewrite lookup_insert_ne in Hf by done.
        rewrite lookup_insert_ne in Hf by done.
        rewrite lookup_empty in Hf. discriminate.
    + exists "b". split; [discriminate|]. vm_compute. eauto.
Defined.

Lemma increment_moves_up_one_witness :
  ∃ c', Get "a" demo3 = Some (Some 1%Z, c')
        ∧ freqOf "a" demo3 = Some 1%Z ∧ freqOf "a" c' = Some 2%Z
        ∧ freqs c' = [1%Z; 2%Z].
Proof.
  destruct (increment_moves_up_one demo3 "a" 1 (KvItem "a" 1%Z (Some 0))
              (MkElement 0 (FreqNode 1 {[1; 2; 3]})) [] [])
    as (c' & tgt & post' & _ & Hget & _ & Hl & Hcase & _ & _ & _ & Hf & _).
  - apply demo3_wf.
  - vm_compute. reflexivity.
  - vm_compute. reflexivity.
  - reflexivity.
  - vm_compute. reflexivity.
  - simpl. unfold Int.min_int, Int.max_int. lia.
  - exists c'. split; [exact Hget|]. split; [vm_compute; reflexivity|].
    split; [exact Hf|].
    destruct Hcase as [(nx & Hnx & _)|(_ & -> & ->)]; [discriminate|].
    unfold freqs. rewrite Hl. vm_compute. reflexivity.
Defined.

Lemma C6_capacity_witness :
  Set_full (New (V:=Z) 0) = false
  ∧ (∃ c, run (sets [(first, "a", 1%Z); (first, "b", 2%Z)]) (New 0) = Some c
          ∧ Size c = 2)
  ∧ (∃ c' victim, Set_ first "c" 3%Z demo2 = Some c'
                  ∧ is_Some (kv demo2 !! victim)
                  ∧ kv c' !! victim = None
                  ∧ Size c' = Size demo2).
Proof.
  destruct (C6_capacity (V:=Z)) as (H1 & H2 & H3).
  split_and!.
  - apply H1. simpl. lia.
  - destruct (H2 0%Z [(first, "a", 1%Z); (first, "b", 2%Z)]) as (c & Hrun & Hsz & _).
    + left. lia.
    + apply NoDup_cons. split; [|apply NoDup_singleton].
      intros Hin%list_elem_of_singleton. discriminate.
    + by exists c.
  - destruct (H3 demo2 first "c" 3%Z) as (c1 & c' & victim & _ & _ & _ & Hset & Hv & Hd1 & Hd & _ & Hsz).
    + apply demo2_wf.
    + vm_compute. reflexivity.
    + vm_compute. reflexivity.
    + vm_compute. reflexivity.
    + exists c', victim. split_and!; [done|done| |done].
      apply not_elem_of_dom. rewrite Hd, Hd1.
      assert (victim ≠ "c").
      { intros ->. destruct Hv as [x Hx]. vm_compute in Hx. discriminate. }
      set_solver.
Defined.

(** * Further properties of the operations *)

(** ** Buckets keep their frequency *)

Lemma same_freqs_refl b l : same_freqs b l l.
Proof. intros e He. left. by exists e. Qed.

Lemma same_freqs_trans b b' l l' l'' :
  b ≤ b' → same_freqs b l l' → same_freqs b' l' l'' → same_freqs b l l''.
Proof.
  intros Hb H1 H2 e'' He''.
  destruct (H2 e'' He'') as [(e' & He' & Hs & Hf)|Hge]; [|right; lia].
  destruct (H1 e' He') as [(e & He & Hs' & Hf')|Hge]; [|right; lia].
  left. exists e. split_and!; [done|congruence|congruence].
Qed.

Lemma same_freqs_shrunk b l l' : shrunk l l' → same_freqs b l l'.
Proof.
  induction 1 as [l|e l l' _ IH|e s' l l' _ _ IH]; intros e' He'.
  - left. by exists e'.
  - destruct (IH e' He') as [(e0 & He0 & Hs & Hf)|Hge]; [|by right].
    left. exists e0. split_and!; [|done|done]. apply elem_of_cons. by right.
  - destruct (IH e' He') as [(e0 & He0 & Hs & Hf)|Hge]; [|by right].
    left. apply elem_of_cons in He0 as [->|He0].
    + exists e. split_and!; [|done|done]. apply elem_of_cons. by left.
    + exists e0. split_and!; [|done|done]. apply elem_of_cons. by right.
Qed.

Lemma target_freq item f1 a post : freq (Value (target item f1 a post).1) = f1.
Proof.
  unfold target. destruct post as [|nx post']; [done|].
  destruct (bool_decide (f1 = freq (Value nx))) eqn:Hm; [|done].
  apply bool_decide_eq_true in Hm. done.
Qed.

Lemma same_freqs_moved item f1 a e pre post :
  same_freqs a (pre ++ e :: post)
    (pre ++ residue item e ++ (target item f1 a post).1 :: (target item f1 a post).2).
Proof.
  intros e'. rewrite !elem_of_app, elem_of_cons, elem_of_residue.
  intros [He'|[[-> _]|[->|He']]].
  - left. exists e'. split_and!; [|done|done]. apply elem_of_app. by left.
  - left. exists e. split_and!; [|done|done].
    apply elem_of_app. right. apply elem_of_cons. by left.
  - unfold target. destruct post as [|nx post']; [right; simpl; lia|].
    destruct (bool_decide (f1 = freq (Value nx))); [|right; simpl; lia].
    left. exists nx. split_and!; [|done|done].
    apply elem_of_app. right. apply elem_of_cons. right. apply elem_of_cons. by left.
  - left. exists e'. split_and!; [|done|done].
    apply elem_of_app. right. apply elem_of_cons. right.
    revert He'. unfold target. destruct post as [|nx post']; [done|].
    destruct (bool_decide (f1 = freq (Value nx))); [|done].
    simpl. intros He'. apply elem_of_cons. by right.
Qed.

Lemma same_freqs_placed {V : Type} (c : cache V) key val :
  same_freqs (brk c) (freqList c) (freqList (placed c key val)).
Proof.
  assert (Hfresh : same_freqs (brk c) (freqList c)
            (MkElement (brk c) (FreqNode 1 {[S (brk c)]}) :: freqList c)).
  { intros e' [->|He']%elem_of_cons; [right; simpl; lia|]. left. by exists e'. }
  unfold placed. destruct (freqList c) as [|frontE rest]; [exact Hfresh|].
  destruct (bool_decide (freq (Value frontE) = 1%Z)); [|exact Hfresh].
  simpl. intros e' [->|He']%elem_of_cons.
  - left. exists frontE. split_and!; [|done|done]. apply elem_of_cons. by left.
  - left. exists e'. split_and!; [|done|done]. apply elem_of_cons. by right.
Qed.

Section Frame.
Context {V : Type}.
Implicit Types (c : cache V) (it : kvItem V).

(** A key whose item and bucket address are untouched keeps its
    frequency. *)
Lemma freqOf_frame c c' key item :
  wf c → wf c' → same_freqs (brk c) (freqList c) (freqList c') →
  kv c !! key = Some item → kv c' !! key = Some item →
  heap c' !! item = heap c !! item →
  freqOf key c' = freqOf key c.
Proof.
  intros Hwf Hwf' Hsame Hk Hk' Hh.
  destruct (wf_lookup c key item Hwf Hk)
    as (it & e & pre & post & Hit & _ & Hpar & Hl & Hin).
  destruct (wf_lookup c' key item Hwf' Hk')
    as (it' & e' & pre' & post' & Hit' & _ & Hpar' & Hl' & Hin').
  assert (it' = it) as -> by congruence.
  assert (He : e ∈ freqList c).
  { rewrite Hl. apply elem_of_app. right. apply elem_of_cons. by left. }
  assert (He' : e' ∈ freqList c').
  { rewrite Hl'. apply elem_of_app. right. apply elem_of_cons. by left. }
  assert (Hs : self e' = self e) by congruence.
  unfold freqOf. rewrite Hk, Hk'. simpl. rewrite Hh, Hit. simpl.
  rewrite Hpar. simpl.
  rewrite (find_NoDup _ e (wf_nodup _ Hwf) He).
  rewrite <- Hs, (find_NoDup _ e' (wf_nodup _ Hwf') He'). simpl. f_equal.
  destruct (Hsame e' He') as [(e0 & He0 & Hs0 & Hf0)|Hge].
  - assert (e0 = e) as ->; [|done].
    apply (NoDup_self_inj (freqList c)); [by apply wf_nodup|done|done|congruence].
  - apply (wf_brk_list _ Hwf) in He. lia.
Qed.

Lemma undisturbed_refl key c : undisturbed key c c.
Proof. by right. Qed.

Lemma undisturbed_trans key c c1 c' :
  undisturbed key c c1 → undisturbed key c1 c' → undisturbed key c c'.
Proof.
  intros H1 [H2|(Hk2 & Hv2 & Hf2)]; [by left|].
  destruct H1 as [H1|(Hk1 & Hv1 & Hf1)].
  - left. congruence.
  - right. split_and!; congruence.
Qed.

(** The general step: the index keeps or drops the key, the key's item is
    untouched, and the buckets keep their frequencies. *)
Lemma undisturbed_intro key c c' :
  wf c → wf c' → same_freqs (brk c) (freqList c) (freqList c') →
  (∀ item, kv c' !! key = Some item →
           kv c !! key = Some item ∧ heap c' !! item = heap c !! item) →
  undisturbed key c c'.
Proof.
  intros Hwf Hwf' Hsame Hkeep.
  destruct (kv c' !! key) as [item|] eqn:Hk'; [right|by left].
  destruct (Hkeep item eq_refl) as [Hk Hh].
  split_and!; [congruence| |].
  - unfold valueOf. rewrite Hk, Hk'. simpl. by rewrite Hh.
  - by apply (freqOf_frame c c' key item).
Qed.
End Frame.


(** ** Calls leave the other keys alone *)

Section FrameCalls.
Context {V : Type}.
Implicit Types (c : cache V) (it : kvItem V).

Lemma Evict_undisturbed pick n c c' key :
  wf c → Evict pick n c = Some c' → undisturbed key c c'.
Proof.
  intros Hwf Hev.
  destruct (Evict_spec pick n c Hwf)
    as (c'' & Hrun & Hwf' & _ & Hheap & Hbrk & Hsub & Hshr & _).
  assert (c'' = c') as -> by congruence.
  apply undisturbed_intro; [done|done|by apply same_freqs_shrunk|].
  intros item Hk. split; [by apply Hsub|by rewrite Hheap].
Qed.

Lemma moved_undisturbed c key0 item it it' e pre post f1 b key :
  wf c → wf (moved c item it' e pre post f1 b) →
  kv c !! key0 = Some item → freqList c = pre ++ e :: post → key ≠ key0 →
  undisturbed key c (moved c item it' e pre post f1 b).
Proof.
  intros Hwf Hwf' Hk0 Hl Hne.
  apply undisturbed_intro; [done|done| |].
  - unfold moved. simpl. rewrite Hl. apply same_freqs_moved.
  - unfold moved. simpl. intros item' Hk. split; [done|].
    rewrite lookup_insert_ne; [done|]. intros <-.
    apply Hne. by apply (wf_kv_inj c key key0 item).
Qed.

Lemma Get_undisturbed c c' key0 r key :
  wf c → Get key0 c = Some (r, c') → key ≠ key0 → undisturbed key c c'.
Proof.
  intros Hwf Hget Hne. destruct (kv c !! key0) as [item|] eqn:Hk0.
  - destruct (Get_live c key0 item Hwf Hk0)
      as (it & e & pre & post & b & _ & _ & _ & Hl & _ & _ & _ & Hrun & Hwf').
    rewrite Hrun in Hget. injection Hget as _ <-.
    by apply (moved_undisturbed c key0).
  - rewrite (Get_absent c key0 Hk0) in Hget. injection Hget as _ <-.
    apply undisturbed_refl.
Qed.

Lemma placed_heap c key val :
  ∃ a x, brk c ≤ a ∧ heap (placed c key val) = <[a := x]> (heap c).
Proof.
  unfold placed. destruct (freqList c) as [|frontE rest]; simpl.
  - eexists _, _. split; [|done]. lia.
  - destruct (bool_decide _); simpl; eexists _, _; (split; [|done]); lia.
Qed.

Lemma Set_locked_undisturbed c c' key0 val key :
  wf c → Set_locked key0 val c = Some c' → key ≠ key0 → undisturbed key c c'.
Proof.
  intros Hwf Hset Hne. destruct (kv c !! key0) as [item|] eqn:Hk0.
  - destruct (Set_locked_live c key0 val item Hwf Hk0)
      as (it & e & pre & post & b & _ & _ & _ & Hl & _ & _ & _ & Hrun & Hwf').
    rewrite Hrun in Hset. injection Hset as <-.
    by apply (moved_undisturbed c key0).
  - rewrite (Set_locked_new c key0 val Hk0) in Hset. injection Hset as <-.
    apply undisturbed_intro; [done|by apply wf_placed|apply same_freqs_placed|].
    destruct (placed_kv c key0 val) as (_ & p & Hkv).
    destruct (placed_heap c key0 val) as (a & x & Ha & Hheap).
    intros item. rewrite Hkv, Hheap, lookup_insert_ne by done. intros Hk.
    split; [done|]. rewrite lookup_insert_ne; [done|]. intros ->.
    destruct (wf_kv _ Hwf _ _ Hk) as (it & _ & Hit & _).
    assert (item < brk c) by (apply (wf_brk_heap _ Hwf); eauto). lia.
Qed.

Lemma Set_undisturbed pick c c' key0 val key :
  wf c → Set_ pick key0 val c = Some c' → key ≠ key0 → undisturbed key c c'.
Proof.
  intros Hwf Hset Hne. unfold Set_ in Hset.
  destruct (Set_full c).
  - destruct (Evict_spec pick 1 c Hwf) as (c1 & Hev & Hwf1 & _).
    rewrite Hev in Hset. simpl in Hset.
    apply (undisturbed_trans key c c1 c').
    + by apply (Evict_undisturbed pick 1).
    + by apply (Set_locked_undisturbed c1 c' key0 val).
  - simpl in Hset. by apply (Set_locked_undisturbed c c' key0 val).
Qed.
End FrameCalls.

(** ** What [increment], [Get] and [Set] do to the contents *)

Section Contents.
Context {V : Type}.
Implicit Types (c : cache V) (it : kvItem V).

(** [increment] touches neither the index nor any key or value: in the
    store it rewrites the [parent] of its item and nothing else. *)
Lemma increment_contents item c c' :
  increment item c = Some c' →
  cap c' = cap c ∧ kv c' = kv c
  ∧ ∃ it p, heap c !! item = Some it
            ∧ heap c' = <[item := KvItem (k it) (v it) p]> (heap c).
Proof.
  unfold increment. intros H.
  destruct (heap c !! item) as [it|] eqn:Hit; [simpl in H|done].
  destruct (parent it) as [curr|]; [simpl in H|done].
  destruct (List.find curr (freqList c)) as [currE|]; [simpl in H|done].
  apply bind_Some in H as (currE' & _ & H).
  destruct (List.Next curr (freqList c)) as [nextE|].
  - destruct (bool_decide (Int.add (freq (Value currE)) 1 ≠ freq (Value nextE)));
      destruct (decide (size (items (Value currE')) = 0));
      injection H as <-; simpl; eauto 6.
  - destruct (decide (size (items (Value currE')) = 0));
      injection H as <-; simpl; eauto 6.
Qed.

Lemma valueOf_insert_parent c h item it p key :
  heap c !! item = Some it → h = <[item := KvItem (k it) (v it) p]> (heap c) →
  valueOf key (Cache (cap c) (kv c) (freqList c) h (brk c)) = valueOf key c.
Proof.
  intros Hit ->. unfold valueOf. simpl.
  destruct (kv c !! key) as [item'|]; [simpl|done].
  destruct (decide (item' = item)) as [->|Hne].
  - by rewrite lookup_insert_eq, Hit.
  - by rewrite lookup_insert_ne.
Qed.

Lemma Set_locked_value c key val :
  wf c →
  ∃ c', Set_locked key val c = Some c' ∧ wf c' ∧ valueOf key c' = Some val
        ∧ dom (kv c') = {[key]} ∪ dom (kv c).
Proof.
  intros Hwf. destruct (kv c !! key) as [item|] eqn:Hk.
  - destruct (Set_locked_live c key val item Hwf Hk)
      as (it & e & pre & post & b & _ & _ & _ & _ & _ & _ & _ & Hrun & Hwf').
    eexists. split_and!; [exact Hrun|done| |].
    + unfold valueOf, moved. simpl. rewrite Hk. simpl. by rewrite lookup_insert_eq.
    + unfold moved. simpl. apply elem_of_dom_2 in Hk. set_solver.
  - exists (placed c key val). split_and!.
    + by apply Set_locked_new.
    + by apply wf_placed.
    + unfold valueOf, placed. destruct (freqList c) as [|frontE rest]; simpl.
      * rewrite lookup_insert_eq. simpl. by rewrite lookup_insert_eq.
      * destruct (bool_decide _); simpl; rewrite lookup_insert_eq; simpl;
          by rewrite lookup_insert_eq.
    + destruct (placed_kv c key val) as (_ & p & ->). apply dom_insert_L.
Qed.

(** A key new to the index starts in a bucket of frequency 1 at the head of
    the list. *)
Lemma placed_freq c key val :
  freqOf key (placed c key val) = Some 1%Z
  ∧ head (freqs (placed c key val)) = Some 1%Z.
Proof.
  unfold freqOf, freqs, placed. destruct (freqList c) as [|frontE rest]; simpl.
  - rewrite lookup_insert_eq. simpl. rewrite lookup_insert_eq. simpl.
    by rewrite decide_True.
  - destruct (bool_decide (freq (Value frontE) = 1%Z)) eqn:Hf; simpl.
    + apply bool_decide_eq_true in Hf.
      rewrite lookup_insert_eq. simpl. rewrite lookup_insert_eq. simpl.
      rewrite decide_True by done. simpl. by rewrite Hf.
    + rewrite lookup_insert_eq. simpl. rewrite lookup_insert_eq. simpl.
      by rewrite decide_True.
Qed.
End Contents.

(** ** Properties of single calls *)

Section Extras.
Context {V : Type}.
Implicit Types (c : cache V) (it : kvItem V).

(** X1. A call leaves every key other than its own alone: after a [Set] or
    a [Get] of another key, or an [Evict], a key is either gone from the
    index or has the item, the value and the frequency it had before. *)
Theorem calls_leave_other_keys_alone (o : call) c c' key :
  wf c → exec o c = Some c' → subject o ≠ Some key →
  kv c' !! key = None
  ∨ (kv c' !! key = kv c !! key
     ∧ valueOf key c' = valueOf key c
     ∧ freqOf key c' = freqOf key c).
Proof.
  intros Hwf Hex Hsub. change (undisturbed key c c').
  destruct o as [pick key0 val|key0|pick n]; simpl in *.
  - apply (Set_undisturbed pick c c' key0 val); [done|done|congruence].
  - destruct (Get key0 c) as [[r c'']|] eqn:Hget; [|done].
    simpl in Hex. injection Hex as ->.
    apply (Get_undisturbed c c' key0 r); [done|done|congruence].
  - by apply (Evict_undisturbed pick n).
Qed.

(** What the embedded [Get] leaves as it was, wherever it returns a
    result. *)
Lemma Get_contents key c r c' :
  Get key c = Some (r, c') →
  r = valueOf key c
  ∧ kv c' = kv c ∧ Size c' = Size c ∧ cap c' = cap c
  ∧ ∀ key', valueOf key' c' = valueOf key' c.
Proof.
  unfold Get. intros H.
  destruct (kv c !! key) as [item|] eqn:Hk.
  - apply bind_Some in H as (it & Hit & H).
    apply bind_Some in H as (c1 & Hinc & H). injection H as <- <-.
    destruct (increment_contents item c c1 Hinc)
      as (Hcap & Hkv & it' & p & Hit' & Hheap).
    assert (it' = it) as -> by congruence.
    split_and!; [|done|by unfold Size; rewrite Hkv|done|].
    + unfold valueOf. rewrite Hk. simpl. by rewrite Hit.
    + intros key'. rewrite <- (valueOf_insert_parent c (heap c1) item it p key' Hit Hheap).
      unfold valueOf. simpl. by rewrite Hkv.
  - injection H as <- <-. split_and!; try done. unfold valueOf. by rewrite Hk.
Qed.

(** X2. [Get] reads: on every well-linked state it returns, its result is
    the value stored for the key ([None] when the key is absent), and the
    index, the size, the capacity and the value of every key are what they
    were. *)
Theorem Get_reads_only key c :
  wf c →
  ∃ r c', Get key c = Some (r, c')
    ∧ r = valueOf key c
    ∧ kv c' = kv c ∧ Size c' = Size c ∧ cap c' = cap c
    ∧ ∀ key', valueOf key' c' = valueOf key' c.
Proof.
  intros Hwf. destruct (Get_inv key c Hwf) as (r & c' & Hget & _).
  exists r, c'. split; [done|]. by apply (Get_contents key c).
Qed.

(** X3. On a well-linked state [Set] returns, the key it set is live with
    the value given, and a [Get] of the key right after returns that value
    as found; this holds on a full cache too, where [Set] evicts first. *)
Theorem Set_then_Get pick key val c :
  wf c →
  ∃ c1 c2, Set_ pick key val c = Some c1
           ∧ valueOf key c1 = Some val
           ∧ 0 < Size c1
           ∧ Get key c1 = Some (Some val, c2).
Proof.
  intros Hwf. unfold Set_.
  assert (∃ c0, (if Set_full c then Evict pick 1 c else Some c) = Some c0 ∧ wf c0)
    as (c0 & -> & Hwf0).
  { destruct (Set_full c); [|by exists c].
    destruct (Evict_spec pick 1 c Hwf) as (c0 & ? & ? & _). by exists c0. }
  simpl.
  destruct (Set_locked_value c0 key val Hwf0) as (c1 & Hset & Hwf1 & Hval & Hdom).
  assert (∃ item, kv c1 !! key = Some item) as [item Hk].
  { apply elem_of_dom. rewrite Hdom. set_solver. }
  destruct (Get_live c1 key item Hwf1 Hk)
    as (it & e & pre & post & b & Hit & _ & _ & _ & _ & _ & _ & Hget & _).
  exists c1. eexists. split_and!; [done|done| |].
  - unfold Size. assert (size (kv c1) ≠ 0); [|lia].
    apply map_size_ne_0_lookup. eauto.
  - rewrite Hget. unfold valueOf in Hval. rewrite Hk in Hval. simpl in Hval.
    rewrite Hit in Hval. simpl in Hval. by rewrite Hval.
Qed.

End Extras.

(** ** Hits *)

Section Hits.
Context {V : Type}.
Implicit Types (c : cache V) (it : kvItem V).

Lemma moved_freqOf c key item it e pre post f1 b :
  wf (moved c item it e pre post f1 b) → kv c !! key = Some item →
  freqOf key (moved c item it e pre post f1 b) = Some f1.
Proof.
  unfold moved. intros Hwf' Hk. unfold freqOf. simpl.
  rewrite Hk. simpl. rewrite lookup_insert_eq. simpl.
  pose proof (find_NoDup _ (target item f1 (brk c) post).1 (wf_nodup _ Hwf')) as Hfind.
  simpl in Hfind. rewrite Hfind.
  - simpl. by rewrite target_freq.
  - rewrite !elem_of_app, elem_of_cons. auto.
Qed.

(** The bucket and the item of a key of known frequency. *)
Lemma live_bucket c key f item it e pre post :
  wf c → freqOf key c = Some f →
  kv c !! key = Some item → heap c !! item = Some it →
  parent it = Some (self e) → freqList c = pre ++ e :: post →
  freq (Value e) = f.
Proof.
  intros Hwf Hf Hk Hit Hpar Hl.
  destruct (freqOf_Some c key f Hwf Hf)
    as (item' & it' & e' & Hk' & Hit' & Hpar' & He' & _ & Hfe).
  assert (item' = item) as -> by congruence.
  assert (it' = it) as -> by congruence.
  assert (e' = e) as ->; [|done].
  apply (NoDup_self_inj (freqList c)); [by apply wf_nodup|done| |congruence].
  rewrite Hl. apply elem_of_app. right. apply elem_of_cons. by left.
Qed.

Lemma Get_hit c key f :
  wf c → freqOf key c = Some f → (Int.min_int ≤ f < Int.max_int)%Z →
  ∃ c', Get key c = Some (valueOf key c, c') ∧ wf c'
        ∧ freqOf key c' = Some (f + 1)%Z.
Proof.
  intros Hwf Hf Hrange.
  destruct (freqOf_Some c key f Hwf Hf) as (item & _ & _ & Hk & _).
  destruct (Get_live c key item Hwf Hk)
    as (it & e & pre & post & b & Hit & _ & Hpar & Hl & _ & _ & _ & Hget & Hwf').
  rewrite (live_bucket c key f item it e pre post) in * by done.
  rewrite add_small in * by (unfold Int.in_range; lia).
  eexists. split_and!; [|exact Hwf'|by apply moved_freqOf].
  rewrite Hget. unfold valueOf. rewrite Hk. simpl. by rewrite Hit.
Qed.

Lemma Set_locked_hit c key val f :
  wf c → freqOf key c = Some f → (Int.min_int ≤ f < Int.max_int)%Z →
  ∃ c', Set_locked key val c = Some c' ∧ freqOf key c' = Some (f + 1)%Z.
Proof.
  intros Hwf Hf Hrange.
  destruct (freqOf_Some c key f Hwf Hf) as (item & _ & _ & Hk & _).
  destruct (Set_locked_live c key val item Hwf Hk)
    as (it & e & pre & post & b & Hit & _ & Hpar & Hl & _ & _ & _ & Hset & Hwf').
  rewrite (live_bucket c key f item it e pre post) in * by done.
  rewrite add_small in * by (unfold Int.in_range; lia).
  eexists. split; [exact Hset|]. by apply moved_freqOf.
Qed.

(** X5. Hits are counted one by one: [j] consecutive [Get]s of a live key
    of frequency [f] (with [f + j] an [int]) all return, leave the key at
    frequency [f + j] with its value, keep the index as it is, and leave
    the frequency of every other key unchanged. *)
Theorem Gets_count_hits (j : nat) : ∀ c key f,
  wf c → freqOf key c = Some f →
  (Int.min_int ≤ f)%Z → (f + Z.of_nat j ≤ Int.max_int)%Z →
  ∃ c', run (replicate j (CGet key)) c = Some c'
        ∧ freqOf key c' = Some (f + Z.of_nat j)%Z
        ∧ valueOf key c' = valueOf key c
        ∧ kv c' = kv c
        ∧ ∀ other, other ≠ key → freqOf other c' = freqOf other c.
Proof.
  induction j as [|j IH]; intros c key f Hwf Hf Hmin Hmax.
  - exists c. simpl. split_and!; try done. by rewrite Z.add_0_r.
  - destruct (Get_hit c key f Hwf Hf) as (c1 & Hget & Hwf1 & Hf1); [lia|].
    destruct (Get_contents key c _ c1 Hget) as (_ & Hkv1 & _ & _ & Hval1).
    destruct (IH c1 key (f + 1)%Z Hwf1 Hf1) as (c' & Hrun & Hf' & Hv' & Hkv' & Hoth);
      [lia|lia|].
    exists c'. simpl. rewrite Hget. simpl.
    split_and!; [done| | | |].
    + rewrite Hf'. f_equal. lia.
    + by rewrite Hv', Hval1.
    + by rewrite Hkv', Hkv1.
    + intros other Hne. rewrite (Hoth other Hne).
      destruct (Get_undisturbed c c1 key (valueOf key c) other Hwf Hget Hne)
        as [Hnone|(_ & _ & Hfo)]; [|done].
      unfold freqOf. rewrite Hnone. rewrite Hkv1 in Hnone. by rewrite Hnone.
Qed.
End Hits.

(** ** The victim of an eviction *)

Section Victim.
Context {V : Type}.
Implicit Types (c : cache V) (it : kvItem V).

(** When a key goes, the keys of lower frequency go with it. *)
Lemma evict_lower_first pick n c c' k1 k2 f1 f2 :
  wf c → StronglySorted Z.lt (freqs c) →
  Evict pick n c = Some c' →
  freqOf k1 c = Some f1 → freqOf k2 c = Some f2 → (f1 < f2)%Z →
  kv c' !! k2 = None → kv c' !! k1 = None.
Proof.
  intros Hwf Hsorted Hev H1 H2 Hlt Hk2.
  destruct (Evict_spec pick n c Hwf)
    as (c'' & Hrun & Hwf' & _ & Hheap & _ & Hsub & Hshr & _).
  assert (c'' = c') as -> by congruence.
  destruct (freqOf_Some c k1 f1 Hwf H1)
    as (item1 & it1 & e1 & Hkv1 & Hit1 & Hp1 & He1 & Hi1 & Hf1).
  destruct (freqOf_Some c k2 f2 Hwf H2)
    as (item2 & it2 & e2 & Hkv2 & Hit2 & Hp2 & He2 & Hi2 & Hf2).
  destruct (kv c' !! k1) as [p|] eqn:Hk1; [exfalso|done].
  assert (p = item1) as -> by (apply Hsub in Hk1; congruence).
  destruct (wf_kv _ Hwf' _ _ Hk1) as (_ & e1' & _ & _ & He1' & Hi1').
  destruct (wf_items _ Hwf' _ _ He1' Hi1') as (it1' & Hit1' & Hp1' & _).
  rewrite Hheap in Hit1'. assert (it1' = it1) as -> by congruence.
  assert (Hself : self e1' = self e1) by congruence.
  apply list_elem_of_split in He2 as (P & Q & Hl).
  unfold freqs in Hsorted. rewrite Hl, fmap_app, fmap_cons in Hsorted.
  apply StronglySorted_app in Hsorted as (_ & _ & [HQ _]%StronglySorted_cons).
  rewrite Forall_forall in HQ.
  rewrite Hl in He1. apply elem_of_app in He1 as [He1|[->|He1]%elem_of_cons].
  - assert (He2' : e2 ∈ freqList c').
    { apply (shrunk_after _ _ Hshr P e2 Q (self e1)); [by apply wf_nodup|done| |].
      - by apply elem_of_self.
      - rewrite <- Hself. by apply elem_of_self. }
    destruct (wf_items _ Hwf' _ _ He2' Hi2) as (it2' & Hit2' & _ & Hk2').
    rewrite Hheap in Hit2'. assert (it2' = it2) as -> by congruence.
    destruct (wf_kv _ Hwf _ _ Hkv2) as (it0 & _ & Hit0 & Hk0 & _).
    assert (it0 = it2) as -> by congruence. congruence.
  - simpl in *. lia.
  - assert (freq (Value e2) < freq (Value e1))%Z; [|simpl in *; lia].
    apply HQ. apply list_elem_of_fmap. by exists e1.
Qed.

(** [Evict 1] on a non-empty state removes one key, and no key is less
    frequent than it. *)
Lemma Evict_one_victim pick c :
  wf c → StronglySorted Z.lt (freqs c) → 0 < Size c →
  ∃ c' victim fv,
    Evict pick 1 c = Some c' ∧ wf c'
    ∧ freqOf victim c = Some fv
    ∧ dom (kv c') = dom (kv c) ∖ {[victim]}
    ∧ victim ∈ dom (kv c)
    ∧ ∀ other fo, freqOf other c = Some fo → (fv ≤ fo)%Z.
Proof.
  intros Hwf Hsorted Hpos.
  destruct (Evict_spec pick 1 c Hwf)
    as (c' & Hev & Hwf' & _ & _ & _ & Hsub & _ & Hsz).
  specialize (Hsz ltac:(unfold Int.max_int; lia)).
  assert (Hdsub : dom (kv c') ⊆ dom (kv c)).
  { apply subseteq_dom, map_subseteq_spec. intros x px. apply Hsub. }
  assert (Hd1 : size (dom (kv c) ∖ dom (kv c')) = 1).
  { rewrite size_difference by done. rewrite !size_dom. unfold Size in *. lia. }
  apply size_1_elem_of in Hd1 as [victim Hv%leibniz_equiv].
  assert (Hvin : victim ∈ dom (kv c) ∖ dom (kv c')).
  { rewrite Hv. by apply elem_of_singleton. }
  apply elem_of_difference in Hvin as [Hvin Hvout].
  assert (Hdom : dom (kv c') = dom (kv c) ∖ {[victim]}).
  { apply set_eq. intros x. rewrite elem_of_difference, elem_of_singleton. split.
    - intros Hx. split; [by apply Hdsub|]. by intros ->.
    - intros [Hx Hne]. destruct (decide (x ∈ dom (kv c'))) as [|Hout]; [done|].
      assert (Hxd : x ∈ dom (kv c) ∖ dom (kv c')) by (by apply elem_of_difference).
      rewrite Hv in Hxd. by apply elem_of_singleton in Hxd. }
  apply elem_of_dom in Hvin as Hlive. destruct Hlive as [pv Hpv].
  destruct (freqOf_live c victim pv Hwf Hpv) as [fv Hfv].
  exists c', victim, fv. split_and!; try done.
  intros other fo Hfo. destruct (Z_le_gt_dec fv fo) as [|Hgt]; [done|exfalso].
  assert (Hgone : kv c' !! other = None).
  { apply (evict_lower_first pick 1 c c' other victim fo fv); try done; [lia|].
    by apply not_elem_of_dom. }
  destruct (freqOf_Some c other fo Hwf Hfo) as (po & _ & _ & Hpo & _).
  apply not_elem_of_dom in Hgone. apply Hgone. rewrite Hdom.
  apply elem_of_difference. split; [by apply elem_of_dom_2 in Hpo|].
  rewrite elem_of_singleton. intros ->. rewrite Hfv in Hfo. injection Hfo. lia.
Qed.

(** X6. Least frequently used: on a well-linked, ordered, non-empty state
    [Evict 1] removes exactly one key, whatever the iteration order, and no
    live key has a lower frequency than the key removed. *)
Theorem Evict_one_removes_least_frequent pick c :
  wf c → ordered c → 0 < Size c →
  ∃ c' victim fv,
    Evict pick 1 c = Some c'
    ∧ freqOf victim c = Some fv
    ∧ victim ∈ dom (kv c)
    ∧ dom (kv c') = dom (kv c) ∖ {[victim]}
    ∧ ∀ other fo, freqOf other c = Some fo → (fv ≤ fo)%Z.
Proof.
  intros Hwf [Hs _] Hpos.
  destruct (Evict_one_victim pick c Hwf Hs Hpos)
    as (c' & victim & fv & ? & _ & ? & ? & ? & ?).
  by exists c', victim, fv.
Qed.

(** X7. On a full cache (positive capacity, size at or above it) [Set]
    first evicts a key that no live key is less frequent than, whether or
    not the key being set is already present, and then stores its key: the
    keys afterwards are the old ones without the victim, plus the key set. *)
Theorem Set_on_full_cache_evicts_least_frequent pick key val c :
  wf c → ordered c → Set_full c = true →
  ∃ c' victim fv,
    Set_ pick key val c = Some c'
    ∧ freqOf victim c = Some fv
    ∧ (∀ other fo, freqOf other c = Some fo → (fv ≤ fo)%Z)
    ∧ dom (kv c') = {[key]} ∪ (dom (kv c) ∖ {[victim]})
    ∧ valueOf key c' = Some val.
Proof.
  intros Hwf [Hs _] Hfull.
  assert (Hpos : 0 < Size c).
  { unfold Set_full in Hfull. apply andb_true_iff in Hfull as [H1 H2].
    apply bool_decide_eq_true in H1, H2. unfold Size. lia. }
  destruct (Evict_one_victim pick c Hwf Hs Hpos)
    as (c1 & victim & fv & Hev & Hwf1 & Hfv & Hdom & _ & Hmin).
  destruct (Set_locked_value c1 key val Hwf1) as (c' & Hset & _ & Hval & Hdom').
  exists c', victim, fv. split_and!; try done.
  - unfold Set_. rewrite Hfull, Hev. done.
  - by rewrite Hdom', Hdom.
Qed.
End Victim.

(** ** Properties of every reachable state *)

Section Reachable.
Context {V : Type}.
Implicit Types (c : cache V) (it : kvItem V).

(** X8. Back references never dangle: in every state reached from [New],
    each indexed key leads to an item that carries that key and whose
    [parent] is an element of the list holding the item among its members;
    each member of a bucket is such an item of an indexed key; and no item is
    a member of two buckets. *)
Theorem reachable_links_agree cap0 c :
  reachable cap0 c →
  (∀ key item, kv c !! key = Some item →
     ∃ it e, heap c !! item = Some it ∧ k it = key
             ∧ parent it = Some (self e)
             ∧ List.find (self e) (freqList c) = Some e
             ∧ item ∈ items (Value e))
  ∧ (∀ e item, e ∈ freqList c → item ∈ items (Value e) →
       ∃ it, heap c !! item = Some it ∧ parent it = Some (self e)
             ∧ kv c !! k it = Some item)
  ∧ (∀ e1 e2 item, e1 ∈ freqList c → e2 ∈ freqList c →
       item ∈ items (Value e1) → item ∈ items (Value e2) → e1 = e2).
Proof.
  intros [Hwf _]%reachable_wf. split_and!.
  - intros key item Hk.
    destruct (wf_lookup c key item Hwf Hk)
      as (it & e & pre & post & Hit & Hkey & Hpar & Hl & Hin).
    exists it, e. split_and!; try done.
    apply find_NoDup; [by apply wf_nodup|].
    rewrite Hl. apply elem_of_app. right. apply elem_of_cons. by left.
  - by apply wf_items.
  - intros e1 e2 item. by apply wf_bucket_unique.
Qed.

(** X9. Called one after the other, the operations never let a cache of
    positive capacity hold more entries than its capacity. *)
Theorem bounded_cache_within_capacity (os : list call) cap0 c :
  (0 < cap0)%Z → run os (New cap0) = Some c →
  cap c = cap0 ∧ (Z.of_nat (Size c) ≤ cap0)%Z.
Proof.
  intros Hcap Hrun. split; [|by apply (run_within_capacity os)].
  apply (reachable_wf cap0). by exists os.
Qed.

Lemma exec_accesses (o : call) c c' key m :
  wf c → (0 ≤ m < Int.max_int)%Z →
  (∀ f, freqOf key c = Some f → (1 ≤ f ≤ m)%Z) →
  exec o c = Some c' →
  ∀ f, freqOf key c' = Some f →
       (1 ≤ f ≤ m + Z.of_nat (accesses key [o]))%Z.
Proof.
  intros Hwf Hm Hinv Hex f Hf. unfold accesses. simpl.
  destruct (decide (subject o = Some key)) as [Hsub|Hsub].
  - rewrite filter_cons_True by done. simpl.
    destruct o as [pick key0 val|key0|pick n]; simpl in Hsub; [| |done];
      injection Hsub as ->; simpl in Hex.
    + unfold Set_ in Hex.
      assert (∃ c0, (if Set_full c then Evict pick 1 c else Some c) = Some c0
                    ∧ wf c0 ∧ undisturbed key c c0)
        as (c0 & Hc0 & Hwf0 & Hund).
      { destruct (Set_full c); [|exists c; split_and!; [done|done|by right]].
        destruct (Evict_spec pick 1 c Hwf) as (c0 & Hev & Hwf0 & _).
        exists c0. split_and!; [done|done|]. by apply (Evict_undisturbed pick 1). }
      rewrite Hc0 in Hex. simpl in Hex.
      destruct (kv c0 !! key) as [item|] eqn:Hk0.
      * destruct (freqOf_live c0 key item Hwf0 Hk0) as [f0 Hf0].
        assert (1 ≤ f0 ≤ m)%Z as Hf0m.
        { apply Hinv. destruct Hund as [Hn|(_ & _ & <-)]; [congruence|done]. }
        destruct (Set_locked_hit c0 key val f0 Hwf0 Hf0) as (c1 & Hset & Hf1).
        { unfold Int.min_int. lia. }
        assert (c1 = c') as -> by congruence.
        rewrite Hf1 in Hf. injection Hf as <-. lia.
      * rewrite (Set_locked_new c0 key val Hk0) in Hex. injection Hex as <-.
        destruct (placed_freq c0 key val) as [Hf1 _].
        rewrite Hf1 in Hf. injection Hf as <-. lia.
    + destruct (Get key c) as [[r c1]|] eqn:Hget; [|done].
      simpl in Hex. injection Hex as ->.
      destruct (freqOf key c) as [f0|] eqn:Hf0.
      * specialize (Hinv f0 eq_refl).
        destruct (Get_hit c key f0 Hwf Hf0) as (c1 & Hget' & _ & Hf1).
        { unfold Int.min_int. lia. }
        assert (c1 = c') as -> by congruence.
        rewrite Hf1 in Hf. injection Hf as <-. lia.
      * destruct (kv c !! key) as [item|] eqn:Hk.
        { destruct (freqOf_live c key item Hwf Hk) as [f0 Hf0']. congruence. }
        rewrite (Get_absent c key Hk) in Hget. injection Hget as _ <-. congruence.
  - rewrite filter_cons_False by done. simpl.
    assert (Hund : undisturbed key c c').
    { destruct o as [pick key0 val|key0|pick n]; simpl in *.
      - apply (Set_undisturbed pick c c' key0 val); [done|done|congruence].
      - destruct (Get key0 c) as [[r c'']|] eqn:Hget; [|done].
        simpl in Hex. injection Hex as ->.
        apply (Get_undisturbed c c' key0 r); [done|done|congruence].
      - by apply (Evict_undisturbed pick n). }
    destruct Hund as [Hn|(_ & _ & Heq)].
    + unfold freqOf in Hf. rewrite Hn in Hf. done.
    + rewrite Heq in Hf. specialize (Hinv f Hf). lia.
Qed.

Lemma run_accesses (os : list call) key : ∀ c c' m,
  wf c → (0 ≤ m)%Z → (m + Z.of_nat (length os) ≤ Int.max_int)%Z →
  (∀ f, freqOf key c = Some f → (1 ≤ f ≤ m)%Z) →
  run os c = Some c' →
  ∀ f, freqOf key c' = Some f → (1 ≤ f ≤ m + Z.of_nat (accesses key os))%Z.
Proof.
  induction os as [|o os IH]; intros c c' m Hwf Hm Hlen Hinv Hrun f Hf.
  - simpl in Hrun. injection Hrun as <-. unfold accesses. simpl.
    specialize (Hinv f Hf). lia.
  - simpl in Hrun. destruct (exec_inv o c Hwf) as (c1 & Hex & Hwf1 & _).
    rewrite Hex in Hrun. simpl in Hrun. simpl length in Hlen.
    pose proof (exec_accesses o c c1 key m Hwf ltac:(lia) Hinv Hex) as Hinv1.
    assert (Hacc : accesses key (o :: os) = accesses key [o] + accesses key os).
    { unfold accesses. change (o :: os) with ([o] ++ os).
      by rewrite filter_app, length_app. }
    assert (Hle : accesses key [o] ≤ 1).
    { unfold accesses. simpl. destruct (decide (subject o = Some key)).
      - by rewrite filter_cons_True.
      - rewrite filter_cons_False by done. simpl. lia. }
    rewrite Hacc.
    pose proof (IH c1 c' (m + Z.of_nat (accesses key [o]))%Z Hwf1
                  ltac:(lia) ltac:(lia) Hinv1 Hrun f Hf) as Hres.
    lia.
Qed.

(** X10. A frequency counts accesses: in a state reached from [New] by at
    most [max_int] calls, the frequency of a live key is at least 1 and at
    most the number of [Set] and [Get] calls made on that key. *)
Theorem frequency_at_most_accesses cap0 (os : list call) c key f :
  (Z.of_nat (length os) ≤ Int.max_int)%Z →
  run os (New cap0) = Some c → freqOf key c = Some f →
  (1 ≤ f ≤ Z.of_nat (accesses key os))%Z.
Proof.
  intros Hlen Hrun Hf.
  apply (run_accesses os key (New cap0) c 0%Z);
    [apply wf_New|lia|lia| |done|done].
  intros f0 Hf0. unfold freqOf in Hf0. simpl in Hf0.
  by rewrite lookup_empty in Hf0.
Qed.

(** X11. While there is room (capacity not positive, or size below it)
    [Set] evicts nothing: the keys afterwards are the old ones and the key
    set, which has the value given; every other key keeps its item, value
    and frequency; a new key has frequency 1 and a present key of frequency
    [f] (an [int] below [max_int]) has frequency [f + 1]. *)
Theorem Set_with_room pick key val c :
  wf c → Set_full c = false →
  ∃ c', Set_ pick key val c = Some c'
    ∧ dom (kv c') = {[key]} ∪ dom (kv c)
    ∧ valueOf key c' = Some val
    ∧ (∀ other, other ≠ key →
         kv c' !! other = kv c !! other
         ∧ valueOf other c' = valueOf other c
         ∧ freqOf other c' = freqOf other c)
    ∧ (kv c !! key = None → freqOf key c' = Some 1%Z)
    ∧ (∀ f, freqOf key c = Some f → (Int.min_int ≤ f < Int.max_int)%Z →
            freqOf key c' = Some (f + 1)%Z).
Proof.
  intros Hwf Hroom.
  destruct (Set_locked_value c key val Hwf) as (c' & Hset & Hwf' & Hval & Hdom).
  assert (Hrun : Set_ pick key val c = Some c').
  { unfold Set_. by rewrite Hroom. }
  exists c'. split_and!; [done|done|done| | |].
  - intros other Hne.
    destruct (Set_locked_undisturbed c c' key val other Hwf Hset Hne)
      as [Hnone|Hsame]; [|done].
    assert (Ho : kv c !! other = None).
    { apply not_elem_of_dom. apply not_elem_of_dom in Hnone.
      rewrite Hdom in Hnone. set_solver. }
    unfold valueOf, freqOf. by rewrite Hnone, Ho.
  - intros Hk. rewrite (Set_locked_new c key val Hk) in Hset. injection Hset as <-.
    apply placed_freq.
  - intros f Hf Hrange.
    destruct (Set_locked_hit c key val f Hwf Hf Hrange) as (c1 & Hset1 & Hf1).
    by assert (c1 = c') as -> by congruence.
Qed.
End Reachable.

(** ** What an eviction does not leave to the iteration order *)

Lemma drain_0 l : drain l 0 = l.
Proof. by destruct l as [|[[a f] sz] rest]. Qed.

Section Profile.
Context {V : Type}.
Implicit Types (c : cache V) (it : kvItem V).

Lemma profile_trimmed c front rest s' idx' :
  profile (trimmed c front rest s' idx')
  = if decide (size s' = 0) then profile (set_freqList rest c)
    else (self front, freq (Value front), size s') :: profile (set_freqList rest c).
Proof. unfold profile, trimmed. simpl. by destruct (decide (size s' = 0)). Qed.

Lemma evictLoop_profile pick n : ∀ fuel i c,
  wf c → members c < fuel → (0 ≤ i ≤ n)%Z → (n ≤ Int.max_int)%Z →
  ∃ c', evictLoop fuel pick n i c = Some c'
        ∧ profile c' = drain (profile c) (Z.to_nat (n - i)).
Proof.
  induction fuel as [|fuel IH]; intros i c Hwf Hfuel Hi Hn; [lia|].
  destruct (decide (i = n)) as [->|Hne].
  { exists c. simpl. rewrite decide_True by auto. split; [done|].
    replace (Z.to_nat (n - n)) with 0 by lia. by rewrite drain_0. }
  destruct (freqList c) as [|front rest] eqn:Hl.
  { exists c. simpl. rewrite Hl. rewrite decide_True by auto. split; [done|].
    unfold profile. by rewrite Hl. }
  assert (Hfront : front ∈ freqList c) by (rewrite Hl; apply elem_of_cons; by left).
  destruct (rangeItems_spec pick n (heap c) (size (items (Value front)))
              (items (Value front)) (kv c) i)
    as (s' & idx' & i' & Hrun & Hsub & Hless & Hchar & Hexit & Hsize & Hcount).
  { done. }
  { intros item Hin.
    destruct (wf_items _ Hwf _ _ Hfront Hin) as (it & Hit & _ & Hk). eauto. }
  { intros key item Hk.
    destruct (wf_kv _ Hwf _ _ Hk) as (it & _ & Hit & Hk' & _). eauto. }
  rewrite (evictLoop_round fuel pick n i c front rest s' idx' i' Hne Hl Hrun).
  pose proof (wf_trimmed c front rest s' idx' Hwf Hl Hsub Hchar) as Hwf2.
  assert (Hlt : size s' < size (items (Value front))).
  { apply subset_size. split; [done|]. intros Hsup.
    apply Hless; [by apply (wf_nonempty _ Hwf)|]. set_solver. }
  destruct Hcount as [Hi' Hle]; [lia|done|].
  destruct (IH i' (trimmed c front rest s' idx') Hwf2) as (c' & Hrun' & Hprof).
  { rewrite (members_cons c front rest Hl) in Hfuel.
    unfold members, trimmed. simpl. destruct (decide (size s' = 0)); simpl; lia. }
  { lia. }
  { done. }
  exists c'. split; [done|]. rewrite Hprof, profile_trimmed.
  unfold profile at 3. rewrite Hl. simpl.
  rewrite (decide_False (P := Z.to_nat (n - i) = 0)) by lia.
  destruct (decide (size s' = 0)) as [Hz|Hz].
  - rewrite decide_True by lia. unfold profile. simpl. f_equal. lia.
  - destruct Hexit as [-> | ->]; [by rewrite size_empty in Hz|].
    replace (Z.to_nat (n - n)) with 0 by lia. rewrite drain_0.
    rewrite decide_False by lia. unfold profile. simpl. do 2 f_equal. lia.
Qed.

(** X12. Which members of a bucket an eviction takes depends on the
    iteration order of the map, but how many it takes from each bucket does
    not: for [n] a positive [int], [Evict n] leaves the same buckets, with
    the same frequencies and the same numbers of members, under every
    iteration order, namely the old shape with [n] members taken from the
    front. *)
Theorem Evict_shape_is_deterministic pick1 pick2 n c :
  wf c → (0 < n ≤ Int.max_int)%Z →
  ∃ c1 c2, Evict pick1 n c = Some c1 ∧ Evict pick2 n c = Some c2
           ∧ profile c1 = profile c2
           ∧ profile c1 = drain (profile c) (Z.to_nat n)
           ∧ Size c1 = Size c2.
Proof.
  intros Hwf Hn. unfold Evict. rewrite !decide_False by lia.
  destruct (evictLoop_profile pick1 n (evictFuel c) 0 c Hwf) as (c1 & Hr1 & Hp1);
    [unfold evictFuel, members; lia|lia|lia|].
  destruct (evictLoop_profile pick2 n (evictFuel c) 0 c Hwf) as (c2 & Hr2 & Hp2);
    [unfold evictFuel, members; lia|lia|lia|].
  rewrite Z.sub_0_r in Hp1, Hp2.
  exists c1, c2. split_and!; [done|done|congruence|done|].
  destruct (Evict_spec pick1 n c Hwf) as (c1' & He1 & _ & _ & _ & _ & _ & _ & Hs1).
  destruct (Evict_spec pick2 n c Hwf) as (c2' & He2 & _ & _ & _ & _ & _ & _ & Hs2).
  unfold Evict in He1, He2. rewrite decide_False in He1, He2 by lia.
  assert (c1' = c1) as -> by congruence. assert (c2' = c2) as -> by congruence.
  specialize (Hs1 Hn). specialize (Hs2 Hn). lia.
Qed.
End Profile.

(** ** Instances of the further properties on the sample states *)

Lemma calls_leave_other_keys_alone_witness :
  ∃ c', exec (CGet "a") demo3 = Some c'
        ∧ (kv c' !! "b" = None
           ∨ (kv c' !! "b" = kv demo3 !! "b"
              ∧ valueOf "b" c' = valueOf "b" demo3
              ∧ freqOf "b" c' = freqOf "b" demo3)).
Proof.
  eexists. split; [vm_compute; reflexivity|].
  apply (calls_leave_other_keys_alone (CGet "a") demo3 _ "b").
  - apply demo3_wf.
  - vm_compute. reflexivity.
  - discriminate.
Defined.

Lemma Get_reads_only_witness :
  ∃ r c', Get "a" demo3 = Some (r, c')
    ∧ r = valueOf "a" demo3
    ∧ kv c' = kv demo3 ∧ Size c' = Size demo3 ∧ cap c' = cap demo3
    ∧ ∀ key', valueOf key' c' = valueOf key' demo3.
Proof. apply (Get_reads_only "a" demo3), demo3_wf. Defined.

Lemma Set_then_Get_witness :
  ∃ c1 c2, Set_ first "a" 7%Z demo2 = Some c1
           ∧ valueOf "a" c1 = Some 7%Z
           ∧ 0 < Size c1
           ∧ Get "a" c1 = Some (Some 7%Z, c2).
Proof. apply (Set_then_Get first "a" 7%Z demo2). apply demo2_wf. Defined.


Lemma Gets_count_hits_witness :
  ∃ c', run (replicate 3 (CGet "a")) demo3 = Some c'
        ∧ freqOf "a" c' = Some (1 + Z.of_nat 3)%Z
        ∧ valueOf "a" c' = valueOf "a" demo3
        ∧ kv c' = kv demo3
        ∧ ∀ other, other ≠ "a" → freqOf other c' = freqOf other demo3.
Proof.
  apply (Gets_count_hits 3 demo3 "a" 1%Z).
  - apply demo3_wf.
  - vm_compute. reflexivity.
  - unfold Int.min_int. lia.
  - unfold Int.max_int. lia.
Defined.

Lemma Evict_one_removes_least_frequent_witness :
  ∃ c' victim fv,
    Evict first 1 demo2 = Some c'
    ∧ freqOf victim demo2 = Some fv
    ∧ victim ∈ dom (kv demo2)
    ∧ dom (kv c') = dom (kv demo2) ∖ {[victim]}
    ∧ ∀ other fo, freqOf other demo2 = Some fo → (fv ≤ fo)%Z.
Proof.
  apply (Evict_one_removes_least_frequent first demo2).
  - apply demo2_wf.
  - apply demo2_ordered.
  - rewrite demo2_Size. lia.
Defined.

Lemma Set_on_full_cache_evicts_least_frequent_witness :
  ∃ c' victim fv,
    Set_ first "a" 5%Z demo2 = Some c'
    ∧ freqOf victim demo2 = Some fv
    ∧ (∀ other fo, freqOf other demo2 = Some fo → (fv ≤ fo)%Z)
    ∧ dom (kv c') = {["a"]} ∪ (dom (kv demo2) ∖ {[victim]})
    ∧ valueOf "a" c' = Some 5%Z.
Proof.
  apply (Set_on_full_cache_evicts_least_frequent first "a" 5%Z demo2).
  - apply demo2_wf.
  - apply demo2_ordered.
  - vm_compute. reflexivity.
Defined.

Lemma reachable_links_agree_witness :
  kv demo2 !! "a" = Some 1
  ∧ ∃ it e, heap demo2 !! 1 = Some it ∧ k it = "a"
            ∧ parent it = Some (self e)
            ∧ List.find (self e) (freqList demo2) = Some e
            ∧ 1 ∈ items (Value e).
Proof.
  destruct (reachable_links_agree 2 demo2 demo2_reachable) as (H & _ & _).
  split; [vm_compute; reflexivity|].
  apply (H "a" 1). vm_compute. reflexivity.
Defined.

Lemma bounded_cache_within_capacity_witness :
  ∃ c, run [CSet first "a" 1%Z; CSet first "b" 2%Z; CSet first "c" 3%Z]
         (New 2) = Some c
       ∧ cap c = 2%Z ∧ (Z.of_nat (Size c) ≤ 2)%Z.
Proof.
  eexists. split; [vm_compute; reflexivity|].
  apply (bounded_cache_within_capacity
           [CSet first "a" 1%Z; CSet first "b" 2%Z; CSet first "c" 3%Z] 2%Z).
  - lia.
  - vm_compute. reflexivity.
Defined.

Lemma frequency_at_most_accesses_witness :
  freqOf "a" demo2 = Some 2%Z
  ∧ (1 ≤ 2 ≤ Z.of_nat (accesses "a"
       [CSet first "a" 1%Z; CSet first "b" 2%Z; CGet "a"]))%Z.
Proof.
  split; [vm_compute; reflexivity|].
  apply (frequency_at_most_accesses 2
           [CSet first "a" 1%Z; CSet first "b" 2%Z; CGet "a"] demo2 "a" 2%Z).
  - unfold Int.max_int. simpl. lia.
  - vm_compute. reflexivity.
  - vm_compute. reflexivity.
Defined.

Lemma Set_with_room_witness :
  ∃ c', Set_ first "a" 9%Z demo3 = Some c'
    ∧ dom (kv c') = {["a"]} ∪ dom (kv demo3)
    ∧ valueOf "a" c' = Some 9%Z
    ∧ freqOf "a" c' = Some 2%Z
    ∧ freqOf "b" c' = freqOf "b" demo3.
Proof.
  destruct (Set_with_room first "a" 9%Z demo3) as (c' & Hset & Hdom & Hval & Hoth & _ & Hf).
  - apply demo3_wf.
  - vm_compute. reflexivity.
  - exists c'. split_and!; [done|done|done| |].
    + apply (Hf 1%Z); [vm_compute; reflexivity|].
      unfold Int.min_int, Int.max_int. lia.
    + by apply Hoth.
Defined.

Lemma Evict_shape_is_deterministic_witness :
  ∃ c1 c2, Evict first 2 demo3 = Some c1 ∧ Evict (λ _, 1) 2 demo3 = Some c2
           ∧ profile c1 = profile c2
           ∧ profile c1 = drain (profile demo3) (Z.to_nat 2)
           ∧ Size c1 = Size c2.
Proof.
  apply (Evict_shape_is_deterministic first (λ _, 1) 2 demo3).
  - apply demo3_wf.
  - unfold Int.max_int. lia.
Defined.

(** ** A [Set] of a present key on a full cache *)

Lemma placed_kv_fresh {V : Type} (c : cache V) key val :
  ∃ p, brk c ≤ p ∧ kv (placed c key val) = <[key := p]> (kv c).
Proof.
  unfold placed. destruct (freqList c); [eexists; split; [|done]; simpl; lia|].
  destruct (bool_decide _); eexists; (split; [|done]); simpl; lia.
Qed.

Lemma demo1_wf : wf demo1.
Proof. apply (reachable_wf 1). exists [CSet first "a" 1%Z]. vm_compute. reflexivity. Qed.

Lemma demo1_ordered : ordered demo1.
Proof.
  apply (reachable_ordered 1 [CSet first "a" 1%Z]).
  - vm_compute. reflexivity.
  - unfold Int.max_int. simpl. lia.
Qed.

Lemma demo1_kv : kv demo1 = <["a" := 1]> ∅.
Proof. vm_compute. reflexivity. Qed.

(** C5, where the code departs from it.  [increment] itself, and so [Get],
    moves an entry from its bucket of frequency [f] to a bucket of frequency
    [f + 1] as C5 says ([increment_moves_up_one]).  A re-[Set] of the key
    does not always: [Set] tests the capacity and calls [Evict(1)] before it
    looks the key up.  On a full, well-linked, ordered cache, when the key
    set is strictly the least frequent one, that eviction takes the key
    itself, and the key is then inserted as a new item at frequency 1, not
    [f + 1].  So it is after [Set(a,1); Set(a,2)] on a cache of capacity 1,
    under every iteration order.  On a cache of capacity 2 holding [a] and
    [b] at frequency 1, [Set(a,9)] leaves [a] at frequency 2 under one
    iteration order (and evicts [b]) and at frequency 1 under the other. *)
Theorem C5_set_of_present_key_on_full_cache :
  (∀ (V : Type) (c : cache V) pick key val f,
     wf c → ordered c → Set_full c = true → freqOf key c = Some f →
     (∀ other fo, other ≠ key → freqOf other c = Some fo → (f < fo)%Z) →
     ∃ c', Set_ pick key val c = Some c'
           ∧ freqOf key c' = Some 1%Z ∧ (1 ≠ f + 1)%Z
           ∧ kv c' !! key ≠ kv c !! key
           ∧ valueOf key c' = Some val)
  ∧ (∀ p1 p2 : oracle, ∃ c1 c2 : cache Z,
       Set_ p1 "a" 1%Z (New 1) = Some c1 ∧ freqOf "a" c1 = Some 1%Z
       ∧ Set_ p2 "a" 2%Z c1 = Some c2 ∧ freqOf "a" c2 = Some 1%Z)
  ∧ (freqOf "a" demo_tied = Some 1%Z ∧ freqOf "b" demo_tied = Some 1%Z
     ∧ Set_full demo_tied = true
     ∧ ∃ c c' : cache Z,
         Set_ first "a" 9%Z demo_tied = Some c
         ∧ freqOf "a" c = Some 2%Z ∧ kv c !! "b" = None
         ∧ Set_ (λ _, 1) "a" 9%Z demo_tied = Some c'
         ∧ freqOf "a" c' = Some 1%Z ∧ is_Some (kv c' !! "b")).
Proof.
  split; [|split].
  - intros V c pick key val f Hwf [Hs Hge] Hfull Hf Hstrict.
    assert (Hpos : 0 < Size c).
    { unfold Set_full in Hfull. apply andb_true_iff in Hfull as [H1 H2].
      apply bool_decide_eq_true in H1, H2. unfold Size. lia. }
    destruct (Evict_one_victim pick c Hwf Hs Hpos)
      as (c1 & victim & fv & Hev & Hwf1 & Hfv & Hdom & _ & Hmin).
    assert (victim = key) as ->.
    { destruct (decide (victim = key)) as [|Hne]; [done|exfalso].
      pose proof (Hstrict victim fv Hne Hfv). pose proof (Hmin key f Hf). lia. }
    assert (Hk1 : kv c1 !! key = None).
    { apply not_elem_of_dom. rewrite Hdom. set_solver. }
    destruct (Evict_spec pick 1 c Hwf) as (c1' & Hev' & _ & _ & _ & Hbrk & _).
    assert (c1' = c1) as -> by congruence.
    exists (placed c1 key val). split_and!.
    + unfold Set_. rewrite Hfull, Hev. simpl. by apply Set_locked_new.
    + apply placed_freq.
    + destruct (freqOf_Some c key f Hwf Hf) as (_ & _ & e & _ & _ & _ & He & _ & Hfe).
      unfold freqs in Hge. rewrite Forall_forall in Hge.
      assert (1 ≤ f)%Z; [|lia]. apply Hge. apply list_elem_of_fmap.
      exists e. by split.
    + destruct (placed_kv_fresh c1 key val) as (p & Hp & ->).
      rewrite lookup_insert_eq.
      destruct (freqOf_Some c key f Hwf Hf) as (item & it & _ & Hk & Hit & _).
      rewrite Hk. intros [= ->].
      assert (item < brk c) by (apply (wf_brk_heap _ Hwf); eauto). lia.
    + destruct (Set_locked_value c1 key val Hwf1) as (c' & Hset & _ & Hval & _).
      rewrite (Set_locked_new c1 key val Hk1) in Hset. by injection Hset as <-.
  - intros p1 p2. eexists _, _. split; [vm_compute; reflexivity|].
    split; [vm_compute; reflexivity|]. split; vm_compute; reflexivity.
  - split; [vm_compute; reflexivity|]. split; [vm_compute; reflexivity|].
    split; [vm_compute; reflexivity|]. eexists _, _.
    split; [vm_compute; reflexivity|]. split; [vm_compute; reflexivity|].
    split; [vm_compute; reflexivity|]. split; [vm_compute; reflexivity|].
    split; [vm_compute; reflexivity|]. vm_compute. eauto.
Qed.

Lemma C5_set_of_present_key_on_full_cache_witness :
  freqOf "a" demo1 = Some 1%Z
  ∧ ∃ c', Set_ first "a" 2%Z demo1 = Some c'
          ∧ freqOf "a" c' = Some 1%Z ∧ (1 ≠ 1 + 1)%Z
          ∧ kv c' !! "a" ≠ kv demo1 !! "a"
          ∧ valueOf "a" c' = Some 2%Z.
Proof.
  split; [vm_compute; reflexivity|].
  destruct C5_set_of_present_key_on_full_cache as (H & _ & _).
  apply (H Z demo1 first "a" 2%Z 1%Z).
  - apply demo1_wf.
  - apply demo1_ordered.
  - vm_compute. reflexivity.
  - vm_compute. reflexivity.
  - intros other fo Hne Hfo. unfold freqOf in Hfo. rewrite demo1_kv in Hfo.
    rewrite lookup_insert_ne in Hfo by done.
    rewrite lookup_empty in Hfo. discriminate.
Defined.
